(** * Arena allocator with markers: a shallow embedding of [src/c/arena.h]
      and [src/c/arena.c], and the properties of its specification.

    Modelling conventions.

    - [size_t] is a 64-bit unsigned integer: a [Z] in [0, 2^64), every
      arithmetic operation of the source on a [size_t] is followed by the
      reduction [sz] (modulo 2^64).
    - A pointer is its address, a [Z] in [0, 2^64); [NULL] is address 0.
      The compiled code adds a [size_t] to a pointer modulo 2^64 and checks
      no overflow.  The sums of [arena_alloc] and [arena_realloc] that
      involve a size supplied by the caller ([last->bump + bytes],
      [last->bump += bytes], [ptr + old_size], [cur->bump + extra_needed],
      [ptr + new_size]) and the addresses that the [memset] of
      [arena_calloc] and the [memcpy] of [arena_realloc] step through, for a
      byte count supplied by the caller, are therefore reduced, with
      [ptr_add].  The sums [base + size] for a block of [size] bytes that
      [malloc] has returned and [base + (g - c)] in the rewind of
      [arena_pop_marker] stay inside the block and are written as they
      stand, and so are the addresses of the copy [arena_strdup] makes of a
      string that lies in memory.  A pointer difference is cast to [size_t]
      with [sz] as the source does.
    - The linked list of [Arena_t] nodes is the inductive [Chain]: a node
      whose [next] is [NULL] is [Last b], any other node is [Link b n].
      The node addresses themselves play no part in the code and are left out.
    - Only the root carries markers ([markers = NULL], [marker_count = 0],
      [marker_cap = 0] in every appended node), so the marker array is a
      field of the arena: [markers] is the live prefix
      [markers[0 .. marker_count)] of the C array.
    - The answers of the C library ([malloc], [realloc]) are parameters of the
      operations that call it: the address returned, [NULL] on failure.
    - Memory contents are a function from addresses to bytes.
    - [arena_destroy] only hands memory back to the C library and has no
      counterpart here. *)

From Stdlib Require Import ZArith List Bool Lia.
From Stdlib.Strings Require Import Byte.
Import ListNotations.
Local Open Scope Z_scope.

(** ** Machine integers and constants *)

Definition SIZE_MAX : Z := 2 ^ 64 - 1.
Definition PTRDIFF_MAX : Z := 2 ^ 63 - 1.

(** Reduction of an integer to [size_t]. *)
Definition sz (x : Z) : Z := x mod 2 ^ 64.

Definition NULL : Z := 0.

(** [p + n] for a pointer [p] and a [size_t] [n], as the compiled code
    computes it: modulo 2^64. *)
Definition ptr_add (p n : Z) : Z := sz (p + n).

Definition ARENA_DEFAULT_SIZE : Z := 1024 * 1024.
Definition ARENA_INITIAL_MARKER_CAP : Z := 16.
Definition ARENA_ALIGNMENT : Z := 8.

(** [(n + align - 1) & ~(align - 1)] on [size_t]. *)
Definition align_up (n align : Z) : Z :=
  Z.land (sz (n + align - 1)) (sz (Z.lnot (sz (align - 1)))).

(** ** Blocks and chains *)

Record Block : Type := mkBlock {
  base : Z;   (* start of the memory block *)
  bump : Z;   (* current allocation pointer *)
  end_ : Z    (* end of the memory block (exclusive) *)
}.

Inductive Chain : Type :=
| Last (b : Block)
| Link (b : Block) (next : Chain).

Record Arena_t : Type := mkArena {
  chain : Chain;
  markers : list Z;
  marker_cap : Z
}.

Definition marker_count (a : Arena_t) : Z := Z.of_nat (length (markers a)).

Definition set_bump (b : Block) (p : Z) : Block :=
  mkBlock (base b) p (end_ b).

Definition set_chain (a : Arena_t) (c : Chain) : Arena_t :=
  mkArena c (markers a) (marker_cap a).

(** The node the chain starts with. *)
Definition first_block (c : Chain) : Block :=
  match c with Last b => b | Link b _ => b end.

(** The blocks of a chain, root first. *)
Fixpoint blocks (c : Chain) : list Block :=
  match c with
  | Last b => [b]
  | Link b n => b :: blocks n
  end.

(** [(size_t)(cur->end - cur->base)] *)
Definition block_cap (b : Block) : Z := sz (end_ b - base b).

(** ** Helpers of arena.h *)

Fixpoint get_last_block (cur : Chain) : Block :=
  match cur with
  | Last b => b
  | Link _ n => get_last_block n
  end.

(** The loop of [get_current_position], [pos] being the running total. *)
Fixpoint position_loop (pos : Z) (cur : Chain) : Z :=
  match cur with
  | Last b => sz (pos + sz (bump b - base b))
  | Link b n => position_loop (sz (pos + block_cap b)) n
  end.

Definition get_current_position (a : Arena_t) : Z :=
  position_loop 0 (chain a).

(** ** The C library *)

(** The answers of the two [malloc] calls [arena_alloc] makes when it grows
    the chain: the node ([sizeof(Arena_t)]) and the block memory. *)
Record Malloc : Type := mkMalloc {
  node_ptr : Z;
  base_ptr : Z
}.

Definition Mem : Type := Z -> byte.

Definition store (m : Mem) (p : Z) (v : byte) : Mem :=
  fun q => if q =? p then v else m q.

(** [memset] writes byte after byte, from [p] upwards; past the last
    address it goes on at address 0. *)
Fixpoint memset_loop (m : Mem) (p : Z) (v : byte) (n : nat) : Mem :=
  match n with
  | O => m
  | S k => memset_loop (store m p v) (ptr_add p 1) v k
  end.

Definition memset (m : Mem) (p : Z) (v : byte) (n : Z) : Mem :=
  memset_loop m p v (Z.to_nat n).

(** [memcpy] is a byte-by-byte copy over addresses taken modulo 2^64; C
    requires the two regions not to overlap. *)
Fixpoint memcpy_loop (m : Mem) (dst src : Z) (n : nat) : Mem :=
  match n with
  | O => m
  | S k =>
      memcpy_loop (store m dst (m src)) (ptr_add dst 1) (ptr_add src 1) k
  end.

Definition memcpy (m : Mem) (dst src n : Z) : Mem :=
  memcpy_loop m dst src (Z.to_nat n).

(** The [memcpy] of [arena_strdup]: the bytes of the caller's string
    written from [dst] upwards. *)
Fixpoint write_bytes (m : Mem) (dst : Z) (l : list byte) : Mem :=
  match l with
  | [] => m
  | v :: t => write_bytes (store m dst v) (dst + 1) t
  end.

(** [strlen] on the bytes found at the pointer: up to the first NUL. *)
Fixpoint strlen (s : list byte) : Z :=
  match s with
  | [] => 0
  | v :: t => if Byte.eqb v x00 then 0 else 1 + strlen t
  end.

(** ** arena.c *)

(** [arena_create]: [node], [base_p] and [markers_p] are the answers of its
    three [malloc] calls; the result is [None] for a [NULL] return. *)
Definition arena_create (initial_size : Z) (node base_p markers_p : Z)
  : option Arena_t :=
  let initial_size :=
    if initial_size =? 0 then ARENA_DEFAULT_SIZE else initial_size in
  if node =? NULL then None
  else if base_p =? NULL then None
  else if markers_p =? NULL then None
  else Some (mkArena (Last (mkBlock base_p base_p (base_p + initial_size)))
                     [] ARENA_INITIAL_MARKER_CAP).

(** Size of the block [arena_alloc] chains after [last] for a request of
    [bytes] (already aligned). *)
Definition grow_size (last : Block) (bytes : Z) : Z :=
  let prev_size := block_cap last in
  let new_size := sz (prev_size * 2) in
  let new_size :=
    if new_size <? ARENA_DEFAULT_SIZE then ARENA_DEFAULT_SIZE else new_size in
  if new_size <? bytes then bytes else new_size.

(** [last->next = new_arena] *)
Fixpoint link_last (cur : Chain) (new_arena : Block) : Chain :=
  match cur with
  | Last b => Link b (Last new_arena)
  | Link b n => Link b (link_last n new_arena)
  end.

(** [last->bump += bytes] *)
Fixpoint bump_last (cur : Chain) (bytes : Z) : Chain :=
  match cur with
  | Last b => Last (set_bump b (ptr_add (bump b) bytes))
  | Link b n => Link b (bump_last n bytes)
  end.

Definition arena_alloc (a : Arena_t) (bytes : Z) (m : Malloc) : Arena_t * Z :=
  if bytes =? 0 then (a, NULL)
  else
    let bytes := align_up bytes ARENA_ALIGNMENT in
    let last := get_last_block (chain a) in
    if ptr_add (bump last) bytes >? end_ last then
      let new_size := grow_size last bytes in
      if node_ptr m =? NULL then (a, NULL)
      else if base_ptr m =? NULL then (a, NULL)
      else
        let new_arena :=
          mkBlock (base_ptr m) (base_ptr m) (base_ptr m + new_size) in
        (set_chain a (bump_last (link_last (chain a) new_arena) bytes),
         bump new_arena)
    else (set_chain a (bump_last (chain a) bytes), bump last).

Definition arena_calloc (a : Arena_t) (mem : Mem) (num size : Z) (m : Malloc)
  : Arena_t * Mem * Z :=
  let total := sz (num * size) in
  let '(a', ptr) := arena_alloc a total m in
  if ptr =? NULL then (a', mem, ptr)
  else (a', memset mem ptr x00 total, ptr).

(** [ptr >= cur->base && ptr < cur->end] *)
Definition holds (b : Block) (ptr : Z) : bool :=
  (ptr >=? base b) && (ptr <? end_ b).

(** The body of [arena_realloc] once the block [b] holding [ptr] is found:
    [Some b'] when the block is resized in place, [None] when the code falls
    through to [break]. *)
Definition resize_in_place (b : Block) (ptr old_size new_size : Z)
  : option Block :=
  if ptr_add ptr old_size =? bump b then
    let extra_needed :=
      if new_size >? old_size then sz (new_size - old_size) else 0 in
    if ptr_add (bump b) extra_needed <=? end_ b then
      Some (set_bump b (ptr_add ptr new_size))
    else if new_size <? old_size then
      Some (set_bump b (ptr_add ptr new_size))
    else None
  else None.

(** The search of [arena_realloc] for the block holding [ptr]: [Some c] when
    the block is resized in place ([c] is the chain after it), [None] when the
    loop is left by [break] or runs off the chain. *)
Fixpoint realloc_loop (cur : Chain) (ptr old_size new_size : Z)
  : option Chain :=
  match cur with
  | Last b =>
      if holds b ptr
      then option_map Last (resize_in_place b ptr old_size new_size)
      else None
  | Link b n =>
      if holds b ptr
      then option_map (fun b' => Link b' n)
                      (resize_in_place b ptr old_size new_size)
      else option_map (Link b) (realloc_loop n ptr old_size new_size)
  end.

Definition arena_realloc (a : Arena_t) (mem : Mem) (ptr old_size new_size : Z)
  (m : Malloc) : Arena_t * Mem * Z :=
  if new_size =? 0 then (a, mem, NULL)
  else if ptr =? NULL then
    let '(a', p) := arena_alloc a new_size m in (a', mem, p)
  else
    let old_size := align_up old_size ARENA_ALIGNMENT in
    let new_size := align_up new_size ARENA_ALIGNMENT in
    match realloc_loop (chain a) ptr old_size new_size with
    | Some c => (set_chain a c, mem, ptr)
    | None =>
        let '(a', new_ptr) := arena_alloc a new_size m in
        if new_ptr =? NULL then (a', mem, new_ptr)
        else
          let copy_size :=
            if old_size <? new_size then old_size else new_size in
          (a', memcpy mem new_ptr ptr copy_size, new_ptr)
    end.

(** [arena_push_marker]: [new_markers] is the answer of [realloc] when the
    marker array has to grow. *)
Definition arena_push_marker (a : Arena_t) (new_markers : Z) : Arena_t :=
  if marker_count a =? marker_cap a then
    let new_cap := sz (marker_cap a * 2) in
    if new_markers =? NULL then a
    else mkArena (chain a) (markers a ++ [get_current_position a]) new_cap
  else
    mkArena (chain a) (markers a ++ [get_current_position a]) (marker_cap a).

(** [cur->bump = cur->base + (g - c)] *)
Definition rewind (b : Block) (g c : Z) : Block :=
  set_bump b (base b + sz (g - c)).

(** The loop of [arena_pop_marker]: [Some c'] when a block holding offset [g]
    is found (the blocks after it are freed), [None] when the loop runs off
    the chain. *)
Fixpoint pop_loop (g c : Z) (cur : Chain) : option Chain :=
  match cur with
  | Last b =>
      if g <=? sz (c + block_cap b) then Some (Last (rewind b g c)) else None
  | Link b n =>
      if g <=? sz (c + block_cap b) then Some (Last (rewind b g c))
      else option_map (Link b) (pop_loop g (sz (c + block_cap b)) n)
  end.

Definition arena_pop_marker (a : Arena_t) : Arena_t :=
  if marker_count a =? 0 then a
  else
    let g := last (markers a) 0 in
    let c' := match pop_loop g 0 (chain a) with
              | Some c' => c'
              | None => chain a
              end in
    mkArena c' (removelast (markers a)) (marker_cap a).

Definition arena_reset (a : Arena_t) : Arena_t :=
  let r := first_block (chain a) in
  mkArena (Last (set_bump r (base r))) [] (marker_cap a).

(** [arena_strdup]: the argument is [None] for a [NULL] pointer and
    [Some s] for a pointer to the bytes [s] followed by a NUL. *)
Definition arena_strdup (a : Arena_t) (mem : Mem) (str : option (list byte))
  (m : Malloc) : Arena_t * Mem * Z :=
  match str with
  | None => (a, mem, NULL)
  | Some s =>
      let len := sz (strlen s + 1) in
      let '(a', dup) := arena_alloc a len m in
      if dup =? NULL then (a', mem, dup)
      else (a', write_bytes mem dup (firstn (Z.to_nat len) (s ++ [x00])), dup)
  end.

(** ** Operations as data *)

(** A call of the public interface, with the answers of the C library it
    receives. *)
Inductive Op : Type :=
| OAlloc (bytes : Z) (m : Malloc)
| OCalloc (num size : Z) (m : Malloc)
| ORealloc (ptr old_size new_size : Z) (m : Malloc)
| OStrdup (str : option (list byte)) (m : Malloc)
| OPush (new_markers : Z)
| OPop
| OReset.

Definition State : Type := (Arena_t * Mem)%type.

Definition exec (s : State) (o : Op) : State :=
  let '(a, mem) := s in
  match o with
  | OAlloc bytes m => (fst (arena_alloc a bytes m), mem)
  | OCalloc num size m => fst (arena_calloc a mem num size m)
  | ORealloc ptr old_size new_size m =>
      fst (arena_realloc a mem ptr old_size new_size m)
  | OStrdup str m => fst (arena_strdup a mem str m)
  | OPush new_markers => (arena_push_marker a new_markers, mem)
  | OPop => (arena_pop_marker a, mem)
  | OReset => (arena_reset a, mem)
  end.

(** A run of [arena_alloc] calls. *)
Fixpoint alloc_all (a : Arena_t) (reqs : list (Z * Malloc)) : Arena_t :=
  match reqs with
  | [] => a
  | (bytes, m) :: t => alloc_all (fst (arena_alloc a bytes m)) t
  end.

(** ** Specification vocabulary *)

(** Capacity of a block and of a chain, as integers. *)
Definition capacity (b : Block) : Z := end_ b - base b.

Fixpoint total_capacity (c : Chain) : Z :=
  match c with
  | Last b => capacity b
  | Link b n => capacity b + total_capacity n
  end.

(** Global position: the full capacity of every block before the tail plus
    the bump offset of the tail. *)
Fixpoint position (c : Chain) : Z :=
  match c with
  | Last b => bump b - base b
  | Link b n => capacity b + position n
  end.

(** Global offset of the address [p]: the capacity of the blocks before the
    one holding [p] plus the offset of [p] in it.  In the tail the address
    [end_] counts too, as the global position does. *)
Fixpoint offset_from (acc : Z) (c : Chain) (p : Z) : option Z :=
  match c with
  | Last b =>
      if (base b <=? p) && (p <=? end_ b) then Some (acc + (p - base b))
      else None
  | Link b n =>
      if holds b p then Some (acc + (p - base b))
      else offset_from (acc + capacity b) n p
  end.

Definition global_offset (c : Chain) (p : Z) : option Z := offset_from 0 c p.

Definition chain_length (c : Chain) : nat := length (blocks c).

(** The blocks before the tail. *)
Definition front (c : Chain) : list Block := removelast (blocks c).

Definition block_ok (b : Block) : Prop :=
  0 < base b /\ base b <= bump b <= end_ b /\
  end_ b <= SIZE_MAX /\ capacity b <= PTRDIFF_MAX.

(** The memory of a block, whatever its bump pointer: a valid region of the
    address space. *)
Definition span_ok (b : Block) : Prop :=
  0 < base b /\ base b <= end_ b /\
  end_ b <= SIZE_MAX /\ capacity b <= PTRDIFF_MAX.

Definition disjoint (b1 b2 : Block) : Prop :=
  end_ b1 <= base b2 \/ end_ b2 <= base b1.

Fixpoint separated (l : list Block) : Prop :=
  match l with
  | [] => True
  | b :: t => Forall (disjoint b) t /\ separated t
  end.

Definition is_size (n : Z) : Prop := 0 <= n <= SIZE_MAX.

(** The bump pointer of the tail block lies inside the block. *)
Definition tail_ok (c : Chain) : Prop :=
  base (get_last_block c) <= bump (get_last_block c) <= end_ (get_last_block c).

(** Well-formed arena: every block is a valid region of the address space
    with its bump pointer inside, no two blocks overlap, and the markers are
    [size_t] values. *)
Definition wf (a : Arena_t) : Prop :=
  Forall block_ok (blocks (chain a)) /\
  separated (blocks (chain a)) /\
  Forall is_size (markers a).

Definition aligned_block (b : Block) : Prop :=
  base b mod ARENA_ALIGNMENT = 0 /\ bump b mod ARENA_ALIGNMENT = 0.

Definition aligned (a : Arena_t) : Prop :=
  Forall aligned_block (blocks (chain a)).

(** What [malloc] guarantees for a successful request of [size] bytes made
    while the blocks [l] are live: a non-null, suitably aligned region of the
    address space that overlaps none of them. *)
Definition fresh (l : list Block) (p size : Z) : Prop :=
  0 < p /\ p mod ARENA_ALIGNMENT = 0 /\
  p + size <= SIZE_MAX /\ size <= PTRDIFF_MAX /\
  Forall (disjoint (mkBlock p p (p + size))) l.

(** The block memory [arena_alloc] would ask for. *)
Definition request_size (a : Arena_t) (bytes : Z) : Z :=
  grow_size (get_last_block (chain a)) (align_up bytes ARENA_ALIGNMENT).

Definition malloc_ok (a : Arena_t) (bytes : Z) (m : Malloc) : Prop :=
  base_ptr m = NULL \/
  fresh (blocks (chain a)) (base_ptr m) (request_size a bytes).

Definition create_size (initial_size : Z) : Z :=
  if initial_size =? 0 then ARENA_DEFAULT_SIZE else initial_size.

(** The preconditions of a call: its arguments are [size_t] values and the
    C library answers as it may. *)
Definition op_ok (a : Arena_t) (o : Op) : Prop :=
  match o with
  | OAlloc bytes m => is_size bytes /\ malloc_ok a bytes m
  | OCalloc num size m =>
      is_size num /\ is_size size /\ malloc_ok a (sz (num * size)) m
  | ORealloc ptr old_size new_size m =>
      is_size old_size /\ is_size new_size /\ malloc_ok a new_size m
  | OStrdup str m =>
      match str with
      | None => True
      | Some s => malloc_ok a (sz (strlen s + 1)) m
      end
  | OPush _ | OPop | OReset => True
  end.


(** The aligned request does not carry the bump pointer of the tail block
    past the end of the address space: the sum [last->bump + bytes] of
    [arena_alloc] does not wrap around. *)
Definition no_wrap (a : Arena_t) (bytes : Z) : Prop :=
  bump (get_last_block (chain a)) + align_up bytes ARENA_ALIGNMENT
  <= SIZE_MAX.

(** The pointer sums of a call do not wrap around: the one of [arena_alloc],
    and for [arena_realloc] the sums of [ptr] and the aligned sizes. *)
Definition in_range (a : Arena_t) (o : Op) : Prop :=
  match o with
  | OAlloc bytes _ => no_wrap a bytes
  | OCalloc num size _ => no_wrap a (sz (num * size))
  | ORealloc ptr old_size new_size _ =>
      0 <= ptr /\
      ptr + align_up old_size ARENA_ALIGNMENT <= SIZE_MAX /\
      ptr + align_up new_size ARENA_ALIGNMENT <= SIZE_MAX /\
      no_wrap a new_size
  | OStrdup (Some s) _ => no_wrap a (sz (strlen s + 1))
  | _ => True
  end.

(** States reachable from [arena_create] by calls that satisfy [P] in the
    state they are made in. *)
Inductive reachable_by (P : Arena_t -> Op -> Prop) : State -> Prop :=
| reach_create : forall initial_size node base_p markers_p a mem,
    is_size initial_size ->
    fresh [] base_p (create_size initial_size) ->
    arena_create initial_size node base_p markers_p = Some a ->
    reachable_by P (a, mem)
| reach_exec : forall s o,
    reachable_by P s -> P (fst s) o -> op_ok (fst s) o ->
    reachable_by P (exec s o).

Definition reachable : State -> Prop := reachable_by (fun _ _ => True).



(** The requests of a run of allocations are [size_t] values and [malloc]
    answers each as it may. *)
Fixpoint allocs_ok (a : Arena_t) (reqs : list (Z * Malloc)) : Prop :=
  match reqs with
  | [] => True
  | (bytes, m) :: t =>
      is_size bytes /\ malloc_ok a bytes m /\
      allocs_ok (fst (arena_alloc a bytes m)) t
  end.

(** No request of a run of allocations wraps the pointer sum. *)
Fixpoint allocs_in_range (a : Arena_t) (reqs : list (Z * Malloc)) : Prop :=
  match reqs with
  | [] => True
  | (bytes, m) :: t =>
      no_wrap a bytes /\ allocs_in_range (fst (arena_alloc a bytes m)) t
  end.

Definition sum_caps (l : list Block) : Z :=
  fold_right (fun b s => capacity b + s) 0 l.

(** A block lying in the address range [lo, hi]. *)
Definition within (lo hi : Z) (b : Block) : Prop :=
  lo <= base b /\ base b <= end_ b /\ end_ b <= hi.

(** Two blocks over the same memory region. *)
Definition same_span (b b' : Block) : Prop :=
  base b = base b' /\ end_ b = end_ b'.

(** [ptr] is the address of a region of [old_size] bytes handed out from the
    block [b]: its aligned extent holds [old_size] bytes and lies below the
    bump pointer. *)
Definition live (b : Block) (ptr old_size : Z) : Prop :=
  base b <= ptr /\
  old_size <= align_up old_size ARENA_ALIGNMENT /\
  ptr + align_up old_size ARENA_ALIGNMENT <= bump b.

Definition zero_mem : Mem := fun _ => x00.


(** ** Outcomes, concrete arenas and evaluation tactics *)

(** The outcomes of [arena_alloc], [plus] being the sum of a pointer and a
    size: [ptr_add] in general, the exact sum when nothing wraps. *)
Inductive alloc_outcome (plus : Z -> Z -> Z) (a : Arena_t) (bytes : Z)
  (m : Malloc) : Arena_t -> Z -> Prop :=
| alloc_is_null :
    bytes = 0 \/
    (end_ (get_last_block (chain a))
       < plus (bump (get_last_block (chain a)))
              (align_up bytes ARENA_ALIGNMENT) /\
     (node_ptr m = NULL \/ base_ptr m = NULL)) ->
    alloc_outcome plus a bytes m a NULL
| alloc_is_fit : forall c',
    bytes <> 0 ->
    plus (bump (get_last_block (chain a))) (align_up bytes ARENA_ALIGNMENT)
      <= end_ (get_last_block (chain a)) ->
    blocks c' = front (chain a) ++
                [set_bump (get_last_block (chain a))
                   (plus (bump (get_last_block (chain a)))
                         (align_up bytes ARENA_ALIGNMENT))] ->
    alloc_outcome plus a bytes m (set_chain a c')
                  (bump (get_last_block (chain a)))
| alloc_is_grow : forall c',
    bytes <> 0 ->
    end_ (get_last_block (chain a))
      < plus (bump (get_last_block (chain a)))
             (align_up bytes ARENA_ALIGNMENT) ->
    node_ptr m <> NULL -> base_ptr m <> NULL ->
    blocks c' = blocks (chain a) ++
                [mkBlock (base_ptr m)
                   (plus (base_ptr m) (align_up bytes ARENA_ALIGNMENT))
                   (base_ptr m + request_size a bytes)] ->
    alloc_outcome plus a bytes m (set_chain a c') (base_ptr m).

(** The arena [arena_create(1024)] returns when [malloc] places its block at
    address 4096. *)
Definition arena_1024 : Arena_t :=
  mkArena (Last (mkBlock 4096 4096 5120)) [] ARENA_INITIAL_MARKER_CAP.

(** [malloc] failing, for calls that do not grow the chain. *)
Definition no_memory : Malloc := mkMalloc NULL NULL.

(** Evaluation of a closed term inside the goal. *)
Ltac evaluate t :=
  let v := eval vm_compute in t in
  replace t with v by (vm_compute; reflexivity).

(** Closed equations and comparisons, by evaluation. *)
Ltac by_evaluation :=
  vm_compute; first [reflexivity | discriminate | congruence].

(** Bounds on concrete blocks. *)
Ltac concrete :=
  unfold wf, fresh, block_ok, aligned_block, disjoint, is_size, capacity,
         within, SIZE_MAX, PTRDIFF_MAX, ARENA_ALIGNMENT, NULL;
  simpl;
  repeat match goal with
         | |- _ /\ _ => split
         | |- Forall _ [] => apply Forall_nil
         | |- Forall _ (_ :: _) => apply Forall_cons
         | |- True => exact I
         end;
  simpl; try reflexivity; try lia.

(** [arena_1024] after a first [arena_alloc] of 8 bytes. *)
Definition arena_8 : Arena_t :=
  mkArena (Last (mkBlock 4096 4104 5120)) [] ARENA_INITIAL_MARKER_CAP.

(** A 1024-byte arena whose top marker, 3000, lies beyond its capacity. *)
Definition stale_arena : Arena_t :=
  mkArena (Last (mkBlock 4096 4192 5120)) [16; 3000] ARENA_INITIAL_MARKER_CAP.

Definition state_1024 : State := (arena_1024, zero_mem).


(** ** Vocabulary of the further properties *)


(** The [n] bytes at [p] lie in the part of a block that has been handed
    out: between its base and its bump pointer. *)
Definition used (a : Arena_t) (p n : Z) : Prop :=
  exists b, In b (blocks (chain a)) /\ base b <= p /\ p + n <= bump b.

(** The live markers fit in the marker array. *)
Definition markers_fit (a : Arena_t) : Prop :=
  marker_count a <= marker_cap a.

(** The tail of the chain is the root, or something is allocated in it. *)
Definition tail_in_use (c : Chain) : Prop :=
  (exists b, c = Last b) \/ base (get_last_block c) < bump (get_last_block c).




(** * Properties *)

(** ** size_t arithmetic and alignment *)

Lemma sz_small : forall x, 0 <= x <= SIZE_MAX -> sz x = x.
Proof. intros x H. unfold sz, SIZE_MAX in *. apply Z.mod_small. lia. Qed.

Lemma sz_range : forall x, 0 <= sz x <= SIZE_MAX.
Proof.
  intros x. unfold sz, SIZE_MAX.
  pose proof (Z.mod_pos_bound x (2 ^ 64) ltac:(lia)). lia.
Qed.

Lemma land_mask : forall x,
  0 <= x <= SIZE_MAX -> Z.land x (sz (Z.lnot 7)) = 8 * (x / 8).
Proof.
  intros x Hx.
  assert (Hm : sz (Z.lnot 7) = Z.land (Z.lnot (Z.ones 3)) (Z.ones 64))
    by reflexivity.
  rewrite Hm, Z.land_assoc, (Z.land_comm x), <- Z.land_assoc.
  rewrite (Z.land_ones x 64) by lia.
  fold (sz x). rewrite sz_small by assumption.
  rewrite Z.land_comm, <- Z.ldiff_land, Z.ldiff_ones_r by lia.
  rewrite Z.shiftr_div_pow2, Z.shiftl_mul_pow2 by lia.
  change (2 ^ 3) with 8. lia.
Qed.

Lemma align_up_div : forall n,
  align_up n ARENA_ALIGNMENT = 8 * (sz (n + 7) / 8).
Proof.
  intros n. unfold align_up, ARENA_ALIGNMENT.
  replace (n + 8 - 1) with (n + 7) by lia.
  change (sz (8 - 1)) with 7.
  apply land_mask, sz_range.
Qed.

Lemma align_up_bounds : forall n,
  0 <= align_up n ARENA_ALIGNMENT <= SIZE_MAX - 7 /\
  align_up n ARENA_ALIGNMENT mod ARENA_ALIGNMENT = 0.
Proof.
  intros n. rewrite align_up_div.
  pose proof (sz_range (n + 7)) as Hr.
  unfold SIZE_MAX, ARENA_ALIGNMENT in *.
  pose proof (Z.div_mod (sz (n + 7)) 8 ltac:(lia)).
  pose proof (Z.mod_pos_bound (sz (n + 7)) 8 ltac:(lia)).
  split.
  - lia.
  - rewrite Z.mul_comm. apply Z.mod_mul. lia.
Qed.

Lemma align_up_fits : forall n,
  0 <= n <= SIZE_MAX - 7 ->
  n <= align_up n ARENA_ALIGNMENT < n + 8.
Proof.
  intros n Hn. rewrite align_up_div.
  rewrite sz_small by (unfold SIZE_MAX in *; lia).
  pose proof (Z.div_mod (n + 7) 8 ltac:(lia)).
  pose proof (Z.mod_pos_bound (n + 7) 8 ltac:(lia)).
  lia.
Qed.

Lemma align_up_wraps : forall n,
  SIZE_MAX - 7 < n <= SIZE_MAX -> align_up n ARENA_ALIGNMENT = 0.
Proof.
  intros n Hn. rewrite align_up_div.
  assert (Hs : sz (n + 7) = n + 7 - 2 ^ 64).
  { unfold sz, SIZE_MAX in *.
    symmetry. apply (Z.mod_unique (n + 7) (2 ^ 64) 1); lia. }
  rewrite Hs. unfold SIZE_MAX in *.
  rewrite Z.div_small; lia.
Qed.

Lemma align_up_aligned : forall n,
  0 <= n <= SIZE_MAX -> n mod 8 = 0 -> align_up n ARENA_ALIGNMENT = n.
Proof.
  intros n Hn Hm.
  assert (n <= SIZE_MAX - 7).
  { unfold SIZE_MAX in *.
    pose proof (Z.div_mod n 8 ltac:(lia)). lia. }
  rewrite align_up_div, sz_small by (unfold SIZE_MAX in *; lia).
  pose proof (Z.div_mod n 8 ltac:(lia)).
  assert ((n + 7) / 8 = n / 8).
  { symmetry. apply (Z.div_unique (n + 7) 8 (n / 8) 7); lia. }
  lia.
Qed.

Lemma align_up_idem : forall n,
  align_up (align_up n ARENA_ALIGNMENT) ARENA_ALIGNMENT
  = align_up n ARENA_ALIGNMENT.
Proof.
  intros n. destruct (align_up_bounds n) as [Hb Hm].
  apply align_up_aligned; [unfold SIZE_MAX in *; lia | exact Hm].
Qed.

(** ** Pointer sums *)

Lemma ptr_add_exact : forall p n,
  0 <= p + n <= SIZE_MAX -> ptr_add p n = p + n.
Proof. intros p n H. unfold ptr_add. now apply sz_small. Qed.

Lemma ptr_add_range : forall p n, 0 <= ptr_add p n <= SIZE_MAX.
Proof. intros. apply sz_range. Qed.


(** ** Chains as lists of blocks *)

Lemma blocks_link_last : forall c nb, blocks (link_last c nb) = blocks c ++ [nb].
Proof. induction c; intros; simpl; [reflexivity | now rewrite IHc]. Qed.

Lemma blocks_not_nil : forall c, blocks c <> [].
Proof. destruct c; discriminate. Qed.

Lemma blocks_split : forall c, blocks c = front c ++ [get_last_block c].
Proof.
  unfold front. induction c; simpl; [reflexivity|].
  destruct (blocks c) eqn:E; [now destruct c|].
  rewrite <- E in *. now rewrite IHc at 1.
Qed.

Lemma blocks_bump_last : forall c n,
  blocks (bump_last c n)
  = front c ++
    [set_bump (get_last_block c) (ptr_add (bump (get_last_block c)) n)].
Proof.
  unfold front. induction c; intros; simpl; [reflexivity|].
  rewrite IHc. destruct (blocks c) eqn:E; [now destruct c | reflexivity].
Qed.

Lemma front_app_one : forall c l b, blocks c = l ++ [b] -> front c = l.
Proof. intros c l b H. unfold front. rewrite H. apply removelast_last. Qed.

Lemma last_app_one : forall c l b, blocks c = l ++ [b] -> get_last_block c = b.
Proof.
  intros c l b H. rewrite blocks_split in H.
  apply app_inj_tail in H. tauto.
Qed.

Lemma total_capacity_sum : forall c, total_capacity c = sum_caps (blocks c).
Proof. induction c; simpl; unfold sum_caps in *; simpl; lia. Qed.

Lemma sum_caps_app : forall l1 l2, sum_caps (l1 ++ l2) = sum_caps l1 + sum_caps l2.
Proof. induction l1; intros; simpl; [reflexivity|]. rewrite IHl1. lia. Qed.

Lemma position_sum : forall c,
  position c
  = sum_caps (front c) + (bump (get_last_block c) - base (get_last_block c)).
Proof.
  unfold front. induction c; simpl; [lia|].
  rewrite IHc. destruct (blocks c) eqn:E; [now destruct c|]. simpl. lia.
Qed.

(** ** Disjoint blocks fit in the address space *)

Lemma sum_caps_filter : forall f l,
  sum_caps l = sum_caps (filter f l) + sum_caps (filter (fun x => negb (f x)) l).
Proof.
  induction l; simpl; [reflexivity|].
  destruct (f a); simpl; lia.
Qed.

Lemma separated_filter : forall f l, separated l -> separated (filter f l).
Proof.
  induction l; simpl; intros H; [exact I|].
  destruct H as [H1 H2]. destruct (f a); simpl; auto.
  split; auto.
  rewrite Forall_forall in *. intros x Hx.
  apply filter_In in Hx. apply H1. tauto.
Qed.

Lemma separated_sum_bounded : forall n l lo hi,
  (length l <= n)%nat -> lo <= hi ->
  Forall (within lo hi) l -> separated l -> sum_caps l <= hi - lo.
Proof.
  induction n as [|n IH]; intros l lo hi Hlen Hlh Hin Hsep.
  - destruct l; simpl in *; [lia | inversion Hlen].
  - destruct l as [|h t]; simpl in *; [lia|].
    inversion Hin as [|? ? Hh Ht]; subst. destruct Hsep as [Hd Hs].
    destruct Hh as (Hh1 & Hh2 & Hh3).
    rewrite (sum_caps_filter (fun x => end_ x <=? base h) t).
    pose proof (filter_length_le (fun x => end_ x <=? base h) t).
    pose proof (filter_length_le (fun x => negb (end_ x <=? base h)) t).
    assert (HL : sum_caps (filter (fun x => end_ x <=? base h) t)
                 <= base h - lo).
    { apply IH; [lia | lia | | now apply separated_filter].
      rewrite Forall_forall in *. intros x Hx.
      apply filter_In in Hx. destruct Hx as [Hx Hb].
      apply Z.leb_le in Hb. destruct (Ht x Hx) as (? & ? & ?).
      unfold within. lia. }
    assert (HR : sum_caps (filter (fun x => negb (end_ x <=? base h)) t)
                 <= hi - end_ h).
    { apply IH; [lia | lia | | now apply separated_filter].
      rewrite Forall_forall in *. intros x Hx.
      apply filter_In in Hx. destruct Hx as [Hx Hb].
      apply negb_true_iff, Z.leb_gt in Hb.
      destruct (Ht x Hx) as (? & ? & ?).
      specialize (Hd x Hx). unfold disjoint in Hd.
      unfold within. lia. }
    unfold capacity. lia.
Qed.

Lemma block_ok_span : forall b, block_ok b -> span_ok b.
Proof. unfold block_ok, span_ok. intros. lia. Qed.

Lemma ok_spans : forall l, Forall block_ok l -> Forall span_ok l.
Proof. intros l H. eapply Forall_impl; [|exact H]. apply block_ok_span. Qed.

Lemma span_ok_within : forall b, span_ok b -> within 1 SIZE_MAX b.
Proof. unfold span_ok, within. intros. lia. Qed.

Lemma sum_caps_nonneg : forall l, Forall span_ok l -> 0 <= sum_caps l.
Proof.
  induction 1 as [|b l Hb Hl IH]; simpl; [lia|].
  unfold span_ok, capacity in *. lia.
Qed.

(** Pairwise disjoint blocks have a total capacity below [SIZE_MAX],
    whatever their bump pointers. *)
Lemma spans_total_bound : forall l,
  Forall span_ok l -> separated l -> 0 <= sum_caps l < SIZE_MAX.
Proof.
  intros l Hok Hsep. split; [now apply sum_caps_nonneg|].
  assert (sum_caps l <= SIZE_MAX - 1); [|lia].
  apply (separated_sum_bounded (length l)); auto.
  - unfold SIZE_MAX. lia.
  - eapply Forall_impl; [|exact Hok]. apply span_ok_within.
Qed.

Lemma wf_spans : forall a, wf a -> Forall span_ok (blocks (chain a)).
Proof. intros a (Hok & _). now apply ok_spans. Qed.

Lemma wf_total_bound : forall a,
  wf a -> 0 <= total_capacity (chain a) < SIZE_MAX.
Proof.
  intros a Hwf. rewrite total_capacity_sum.
  apply spans_total_bound; [now apply wf_spans | apply Hwf].
Qed.

(** ** Well-formedness of block lists *)

Lemma separated_app_l : forall l1 l2, separated (l1 ++ l2) -> separated l1.
Proof.
  induction l1; simpl; intros l2 H; [exact I|].
  destruct H as [H1 H2]. split; [|eauto].
  apply Forall_app in H1. tauto.
Qed.

Lemma separated_same_span : forall l l',
  Forall2 same_span l l' -> separated l -> separated l'.
Proof.
  induction 1 as [|b b' l l' Hb Hl IH]; simpl; intros Hs; [exact I|].
  destruct Hs as [H1 H2]. split; [|auto].
  clear IH H2. induction Hl as [|x x' l l' Hx Hl IHl]; constructor.
  - inversion H1; subst. unfold disjoint, same_span in *. lia.
  - apply IHl. now inversion H1.
Qed.

Lemma spans_same_span : forall l l',
  Forall2 same_span l l' -> Forall span_ok l -> Forall span_ok l'.
Proof.
  induction 1 as [|b b' l l' Hb Hl IH]; intros Hs; [constructor|].
  inversion Hs; subst. constructor; [|auto].
  unfold span_ok, same_span, capacity in *. lia.
Qed.

Lemma same_span_refl : forall l, Forall2 same_span l l.
Proof. induction l; constructor; [split; reflexivity | assumption]. Qed.

Lemma same_span_set_bump : forall l b p r,
  Forall2 same_span (l ++ b :: r) (l ++ set_bump b p :: r).
Proof.
  intros. apply Forall2_app; [apply same_span_refl|].
  constructor; [split; reflexivity | apply same_span_refl].
Qed.

Lemma separated_cut : forall l b p r,
  separated (l ++ b :: r) -> separated (l ++ [set_bump b p]).
Proof.
  intros l b p r H.
  apply (separated_same_span (l ++ [b])).
  - apply (same_span_set_bump l b p []).
  - replace (l ++ b :: r) with ((l ++ [b]) ++ r) in H
      by (rewrite <- app_assoc; reflexivity).
    now apply separated_app_l in H.
Qed.

Lemma spans_cut : forall l b p r,
  Forall span_ok (l ++ b :: r) -> Forall span_ok (l ++ [set_bump b p]).
Proof.
  intros l b p r H. apply Forall_app in H. destruct H as [H1 H2].
  inversion H2; subst. apply Forall_app. split; [assumption|].
  constructor; [assumption | constructor].
Qed.

Lemma front_disjoint_last : forall c b,
  separated (blocks c) -> In b (front c) -> disjoint b (get_last_block c).
Proof.
  intros c b Hsep Hb. rewrite blocks_split in Hsep.
  induction (front c) as [|x t IH]; [contradiction|].
  simpl in Hsep. destruct Hsep as [Hd Hs]. destruct Hb as [->|Hb].
  - apply Forall_app in Hd. destruct Hd as [_ Hd]. now inversion Hd.
  - now apply IH.
Qed.

Lemma block_ok_set_bump : forall b p,
  block_ok b -> base b <= p <= end_ b -> block_ok (set_bump b p).
Proof. unfold block_ok, capacity. simpl. intros. lia. Qed.

Lemma ok_set_bump : forall l b p r,
  Forall block_ok (l ++ b :: r) -> base b <= p <= end_ b ->
  Forall block_ok (l ++ set_bump b p :: r).
Proof.
  intros l b p r H Hp. apply Forall_app in H. destruct H as [H1 H2].
  inversion H2; subst. apply Forall_app. split; [assumption|].
  constructor; [now apply block_ok_set_bump | assumption].
Qed.

Lemma ok_cut : forall l b p r,
  Forall block_ok (l ++ b :: r) -> base b <= p <= end_ b ->
  Forall block_ok (l ++ [set_bump b p]).
Proof.
  intros l b p r H Hp. apply Forall_app in H. destruct H as [H1 H2].
  inversion H2; subst. apply Forall_app. split; [assumption|].
  constructor; [now apply block_ok_set_bump | constructor].
Qed.

Lemma total_capacity_nonneg : forall c,
  Forall span_ok (blocks c) -> 0 <= total_capacity c.
Proof. intros. rewrite total_capacity_sum. now apply sum_caps_nonneg. Qed.

Lemma block_cap_exact : forall b, span_ok b -> block_cap b = capacity b.
Proof.
  intros b H. unfold block_cap. fold (capacity b). apply sz_small.
  unfold span_ok, PTRDIFF_MAX, SIZE_MAX, capacity in *. lia.
Qed.

Lemma last_block_ok : forall c,
  Forall block_ok (blocks c) -> block_ok (get_last_block c).
Proof.
  intros c H. rewrite blocks_split in H.
  apply Forall_app in H. destruct H as [_ H]. now inversion H.
Qed.

Lemma last_block_span : forall c,
  Forall span_ok (blocks c) -> span_ok (get_last_block c).
Proof.
  intros c H. rewrite blocks_split in H.
  apply Forall_app in H. destruct H as [_ H]. now inversion H.
Qed.

Lemma wf_tail_ok : forall a, wf a -> tail_ok (chain a).
Proof.
  intros a (Hok & _). apply last_block_ok in Hok.
  unfold tail_ok, block_ok in *. lia.
Qed.

(** ** The global position *)

(** The position depends on the bump pointer of the tail only. *)
Lemma position_bounds_span : forall c,
  Forall span_ok (blocks c) -> tail_ok c ->
  0 <= position c <= total_capacity c.
Proof.
  unfold tail_ok.
  induction c; simpl; intros H Ht; inversion H; subst.
  - unfold capacity. lia.
  - specialize (IHc ltac:(assumption) Ht).
    unfold span_ok, capacity in *. lia.
Qed.

Lemma position_bounds : forall c,
  Forall block_ok (blocks c) -> 0 <= position c <= total_capacity c.
Proof.
  intros c H. apply position_bounds_span; [now apply ok_spans|].
  apply last_block_ok in H. unfold tail_ok, block_ok in *. lia.
Qed.

Lemma position_loop_exact : forall c acc,
  Forall span_ok (blocks c) -> tail_ok c -> 0 <= acc ->
  acc + total_capacity c <= SIZE_MAX ->
  position_loop acc c = acc + position c.
Proof.
  unfold tail_ok.
  induction c; simpl; intros acc H Ht Hacc Hb; inversion H; subst.
  - assert (0 <= bump b - base b <= capacity b)
      by (unfold capacity in *; lia).
    rewrite (sz_small (bump b - base b)) by lia.
    apply sz_small. lia.
  - pose proof (total_capacity_nonneg c ltac:(assumption)).
    assert (0 <= capacity b) by (unfold span_ok, capacity in *; lia).
    rewrite block_cap_exact by assumption.
    rewrite sz_small by lia.
    rewrite IHc by (assumption || lia). lia.
Qed.

Lemma get_current_position_span : forall a,
  Forall span_ok (blocks (chain a)) -> separated (blocks (chain a)) ->
  tail_ok (chain a) ->
  get_current_position a = position (chain a).
Proof.
  intros a Hok Hsep Ht. pose proof (spans_total_bound _ Hok Hsep) as Hb.
  rewrite <- total_capacity_sum in Hb. unfold get_current_position.
  rewrite position_loop_exact; (assumption || lia).
Qed.

Lemma get_current_position_exact : forall a,
  wf a -> get_current_position a = position (chain a).
Proof.
  intros a Hwf. apply get_current_position_span;
    [now apply wf_spans | apply Hwf | now apply wf_tail_ok].
Qed.

(** ** The rewind loop *)

(** The loop reads the base and the end of the blocks only: it finds the
    block of an offset whatever the bump pointers are. *)
Lemma pop_loop_found : forall c g acc,
  Forall span_ok (blocks c) ->
  0 <= acc <= g -> acc + total_capacity c <= SIZE_MAX ->
  g <= acc + total_capacity c ->
  exists l b r c',
    blocks c = l ++ b :: r /\
    pop_loop g acc c = Some c' /\
    blocks c' = l ++ [set_bump b (base b + (g - acc - sum_caps l))] /\
    0 <= g - acc - sum_caps l <= capacity b.
Proof.
  induction c; intros g acc H Hacc Hb Hg; simpl in *; inversion H; subst.
  - rewrite block_cap_exact by assumption.
    assert (0 <= capacity b) by (unfold span_ok, capacity in *; lia).
    rewrite sz_small by lia.
    destruct (Z.leb_spec g (acc + capacity b)); [|lia].
    exists [], b, [], (Last (rewind b g acc)). simpl.
    unfold rewind. rewrite sz_small by lia.
    repeat split; try lia. do 3 f_equal. lia.
  - pose proof (total_capacity_nonneg c ltac:(assumption)).
    assert (0 <= capacity b) by (unfold span_ok, capacity in *; lia).
    rewrite block_cap_exact by assumption.
    rewrite sz_small by lia.
    destruct (Z.leb_spec g (acc + capacity b)).
    + exists [], b, (blocks c), (Last (rewind b g acc)). simpl.
      unfold rewind. rewrite sz_small by lia.
      repeat split; try lia. do 3 f_equal. lia.
    + destruct (IHc g (acc + capacity b)) as (l & b' & r & c' & E1 & E2 & E3 & E4);
        try assumption; try lia.
      exists (b :: l), b', r, (Link b c'). simpl.
      rewrite E1, E2, E3. simpl.
      repeat split; try lia. do 4 f_equal. lia.
Qed.

Lemma pop_loop_none : forall c g acc,
  Forall span_ok (blocks c) ->
  0 <= acc -> acc + total_capacity c <= SIZE_MAX ->
  acc + total_capacity c < g ->
  pop_loop g acc c = None.
Proof.
  induction c; intros g acc H Hacc Hb Hg; simpl in *; inversion H; subst.
  - rewrite block_cap_exact by assumption.
    assert (0 <= capacity b) by (unfold span_ok, capacity in *; lia).
    rewrite sz_small by lia.
    destruct (Z.leb_spec g (acc + capacity b)); [lia | reflexivity].
  - pose proof (total_capacity_nonneg c ltac:(assumption)).
    assert (0 <= capacity b) by (unfold span_ok, capacity in *; lia).
    rewrite block_cap_exact by assumption.
    rewrite sz_small by lia.
    destruct (Z.leb_spec g (acc + capacity b)); [lia|].
    rewrite IHc; (assumption || lia || reflexivity).
Qed.

(** The chain [arena_pop_marker] leaves for the offset [g]. *)
Lemma pop_chain_cases : forall c g,
  Forall span_ok (blocks c) -> separated (blocks c) -> 0 <= g ->
  let c' := match pop_loop g 0 c with Some c' => c' | None => c end in
  Forall span_ok (blocks c') /\ separated (blocks c') /\
  (Forall block_ok (blocks c) -> Forall block_ok (blocks c')) /\
  (g <= total_capacity c -> position c' = g /\ tail_ok c') /\
  (total_capacity c < g -> c' = c).
Proof.
  intros c g Hok Hsep Hg.
  pose proof (spans_total_bound _ Hok Hsep) as Hb.
  rewrite <- total_capacity_sum in Hb.
  destruct (Z.le_gt_cases g (total_capacity c)) as [Hle | Hgt].
  - destruct (pop_loop_found c g 0) as (l & b & r & c' & E1 & E2 & E3 & E4);
      try assumption; try lia.
    rewrite E2. cbv zeta. rewrite E3. rewrite E1 in Hok, Hsep.
    assert (Hb' : span_ok b).
    { apply Forall_app in Hok. destruct Hok as [_ Hok]. now inversion Hok. }
    split; [eapply spans_cut; exact Hok|].
    split; [eapply separated_cut; exact Hsep|].
    split; [|split].
    + rewrite E1. intros Hbk. eapply ok_cut; [exact Hbk|].
      unfold capacity in *. lia.
    + intros _. split.
      * rewrite position_sum.
        rewrite (front_app_one _ _ _ E3), (last_app_one _ _ _ E3). simpl. lia.
      * unfold tail_ok. rewrite (last_app_one _ _ _ E3).
        unfold capacity in *. simpl. lia.
    + lia.
  - rewrite pop_loop_none by (assumption || lia). cbv zeta.
    repeat split; try assumption; try lia; auto.
Qed.

Lemma removelast_Forall : forall (P : Z -> Prop) l,
  Forall P l -> Forall P (removelast l).
Proof.
  induction l as [|x t IH]; intros H; simpl; [constructor|].
  inversion H; subst. destruct t; [constructor|].
  constructor; [assumption | now apply IH].
Qed.

Lemma last_In : forall (l : list Z) d, l <> [] -> In (last l d) l.
Proof.
  intros l d H. destruct (exists_last H) as (l' & y & E).
  rewrite E, last_last. apply in_or_app. right. now left.
Qed.

Lemma pop_marker_wf : forall a, wf a -> wf (arena_pop_marker a).
Proof.
  intros a Hwf. pose proof (wf_spans a Hwf) as Hsp.
  destruct Hwf as (Hok & Hsep & Hm). unfold arena_pop_marker.
  destruct (marker_count a =? 0); [repeat split; assumption|].
  assert (Hg : 0 <= last (markers a) 0).
  { destruct (markers a) as [|x t] eqn:E; [simpl; lia|].
    rewrite Forall_forall in Hm.
    destruct (Hm _ (last_In (x :: t) 0 ltac:(discriminate))). lia. }
  destruct (pop_chain_cases (chain a) (last (markers a) 0))
    as (_ & H2 & H1 & _); try assumption.
  repeat split; simpl; auto. now apply removelast_Forall.
Qed.

(** Popping the offset [g] from a chain of valid, disjoint blocks. *)
Lemma pop_marker_top : forall a ms g,
  Forall span_ok (blocks (chain a)) -> separated (blocks (chain a)) ->
  0 <= g -> markers a = ms ++ [g] ->
  markers (arena_pop_marker a) = ms /\
  Forall span_ok (blocks (chain (arena_pop_marker a))) /\
  separated (blocks (chain (arena_pop_marker a))) /\
  (g <= total_capacity (chain a) ->
   position (chain (arena_pop_marker a)) = g /\
   tail_ok (chain (arena_pop_marker a))) /\
  (total_capacity (chain a) < g ->
   chain (arena_pop_marker a) = chain a).
Proof.
  intros a ms g Hok Hsep Hg E. unfold arena_pop_marker, marker_count.
  rewrite E, last_length, last_last, removelast_last.
  destruct (Z.eqb_spec (Z.of_nat (S (length ms))) 0); [lia|]. simpl.
  destruct (pop_chain_cases (chain a) g) as (H1 & H2 & _ & H3 & H4);
    try assumption.
  auto.
Qed.

(** ** Allocation *)


Lemma alloc_zero : forall a m, arena_alloc a 0 m = (a, NULL).
Proof. reflexivity. Qed.

Lemma alloc_fit : forall a bytes m,
  bytes <> 0 ->
  let al := align_up bytes ARENA_ALIGNMENT in
  let last := get_last_block (chain a) in
  ptr_add (bump last) al <= end_ last ->
  exists c',
    arena_alloc a bytes m = (set_chain a c', bump last) /\
    blocks c' = front (chain a) ++ [set_bump last (ptr_add (bump last) al)].
Proof.
  intros a bytes m Hz al last Hfit. unfold arena_alloc.
  destruct (Z.eqb_spec bytes 0); [contradiction|].
  fold al. fold last.
  destruct (Z.gtb_spec (ptr_add (bump last) al) (end_ last)); [lia|].
  eexists. split; [reflexivity|]. apply blocks_bump_last.
Qed.

(** A request that fits without wrapping. *)
Lemma alloc_fit_exact : forall a bytes m,
  bytes <> 0 ->
  let al := align_up bytes ARENA_ALIGNMENT in
  let last := get_last_block (chain a) in
  0 <= bump last -> end_ last <= SIZE_MAX ->
  bump last + al <= end_ last ->
  exists c',
    arena_alloc a bytes m = (set_chain a c', bump last) /\
    blocks c' = front (chain a) ++ [set_bump last (bump last + al)].
Proof.
  intros a bytes m Hz al last H0 He Hfit.
  destruct (align_up_bounds bytes) as [Hal _]. fold al in Hal.
  assert (E : ptr_add (bump last) al = bump last + al)
    by (apply ptr_add_exact; lia).
  destruct (alloc_fit a bytes m Hz) as (c' & E1 & E2).
  - fold al last. lia.
  - fold al last in E2. rewrite E in E2. eauto.
Qed.

Lemma alloc_fail : forall a bytes m,
  bytes <> 0 ->
  let al := align_up bytes ARENA_ALIGNMENT in
  let last := get_last_block (chain a) in
  end_ last < ptr_add (bump last) al ->
  node_ptr m = NULL \/ base_ptr m = NULL ->
  arena_alloc a bytes m = (a, NULL).
Proof.
  intros a bytes m Hz al last Hfit Hm. unfold arena_alloc.
  destruct (Z.eqb_spec bytes 0); [contradiction|].
  fold al. fold last.
  destruct (Z.gtb_spec (ptr_add (bump last) al) (end_ last)); [|lia].
  destruct (Z.eqb_spec (node_ptr m) NULL); [reflexivity|].
  destruct (Z.eqb_spec (base_ptr m) NULL); [reflexivity|].
  tauto.
Qed.

Lemma alloc_grow : forall a bytes m,
  bytes <> 0 ->
  let al := align_up bytes ARENA_ALIGNMENT in
  let last := get_last_block (chain a) in
  end_ last < ptr_add (bump last) al ->
  node_ptr m <> NULL -> base_ptr m <> NULL ->
  exists c',
    arena_alloc a bytes m = (set_chain a c', base_ptr m) /\
    blocks c' = blocks (chain a) ++
                [mkBlock (base_ptr m) (ptr_add (base_ptr m) al)
                         (base_ptr m + grow_size last al)].
Proof.
  intros a bytes m Hz al last Hfit Hn Hp. unfold arena_alloc.
  destruct (Z.eqb_spec bytes 0); [contradiction|].
  fold al. fold last.
  destruct (Z.gtb_spec (ptr_add (bump last) al) (end_ last)); [|lia].
  destruct (Z.eqb_spec (node_ptr m) NULL); [contradiction|].
  destruct (Z.eqb_spec (base_ptr m) NULL); [contradiction|].
  eexists. split; [reflexivity|].
  rewrite blocks_bump_last.
  pose proof (blocks_link_last (chain a)
    (mkBlock (base_ptr m) (base_ptr m) (base_ptr m + grow_size last al))) as E.
  rewrite (front_app_one _ _ _ E), (last_app_one _ _ _ E). reflexivity.
Qed.

(** What [arena_alloc] does, in every state and for every request. *)
Lemma alloc_inv : forall a bytes m,
  alloc_outcome ptr_add a bytes m (fst (arena_alloc a bytes m))
                                  (snd (arena_alloc a bytes m)).
Proof.
  intros a bytes m.
  destruct (Z.eq_dec bytes 0) as [->|Hz].
  { rewrite alloc_zero. constructor. now left. }
  destruct (Z.le_gt_cases
              (ptr_add (bump (get_last_block (chain a)))
                       (align_up bytes ARENA_ALIGNMENT))
              (end_ (get_last_block (chain a)))) as [Hfit|Hgrow].
  { destruct (alloc_fit a bytes m Hz Hfit) as (c' & E & Hc).
    rewrite E. simpl. now constructor. }
  destruct (Z.eq_dec (node_ptr m) NULL) as [Hn|Hn].
  { rewrite alloc_fail by auto. constructor. right. auto. }
  destruct (Z.eq_dec (base_ptr m) NULL) as [Hp|Hp].
  { rewrite alloc_fail by auto. constructor. right. auto. }
  destruct (alloc_grow a bytes m Hz Hgrow Hn Hp) as (c' & E & Hc).
  rewrite E. simpl. now constructor.
Qed.

Lemma request_size_ge : forall a bytes,
  align_up bytes ARENA_ALIGNMENT <= request_size a bytes /\
  ARENA_DEFAULT_SIZE <= request_size a bytes.
Proof.
  intros a bytes. unfold request_size, grow_size. cbv zeta.
  destruct (Z.ltb_spec (sz (block_cap (get_last_block (chain a)) * 2))
                       ARENA_DEFAULT_SIZE);
    match goal with |- context [?x <? ?y] => destruct (Z.ltb_spec x y) end;
    lia.
Qed.

(** What [arena_alloc] does when its pointer sums do not wrap: the sums
    are the exact ones. *)
Lemma alloc_inv_exact : forall a bytes m,
  block_ok (get_last_block (chain a)) ->
  no_wrap a bytes -> malloc_ok a bytes m ->
  alloc_outcome Z.add a bytes m (fst (arena_alloc a bytes m))
                                (snd (arena_alloc a bytes m)).
Proof.
  intros a bytes m Hlast Hnw Hm.
  destruct (align_up_bounds bytes) as [Hal _].
  assert (E : ptr_add (bump (get_last_block (chain a)))
                      (align_up bytes ARENA_ALIGNMENT)
              = bump (get_last_block (chain a))
                + align_up bytes ARENA_ALIGNMENT).
  { apply ptr_add_exact. unfold no_wrap, block_ok in *. lia. }
  destruct (alloc_inv a bytes m) as [H | c' Hz Hfit Hc | c' Hz Hgrow Hn Hp Hc].
  - rewrite E in H. now constructor.
  - rewrite E in Hfit, Hc. now constructor.
  - rewrite E in Hgrow.
    destruct Hm as [Hm | (Hf1 & _ & Hf3 & _)]; [contradiction|].
    destruct (request_size_ge a bytes) as [Hge _].
    rewrite ptr_add_exact in Hc by lia.
    now constructor.
Qed.

Lemma disjoint_sym : forall b1 b2, disjoint b1 b2 -> disjoint b2 b1.
Proof. unfold disjoint. intros. lia. Qed.

Lemma separated_snoc : forall l b,
  separated l -> Forall (fun x => disjoint x b) l -> separated (l ++ [b]).
Proof.
  induction l; simpl; intros b Hs Hd; [split; [constructor | exact I]|].
  destruct Hs as [H1 H2]. inversion Hd; subst.
  split; [|auto].
  apply Forall_app. split; [assumption|]. constructor; [assumption|constructor].
Qed.

Lemma alloc_markers : forall a bytes m,
  markers (fst (arena_alloc a bytes m)) = markers a /\
  marker_cap (fst (arena_alloc a bytes m)) = marker_cap a.
Proof.
  intros. destruct (alloc_inv a bytes m); simpl; auto.
Qed.

(** Whatever the request, [arena_alloc] leaves a chain of valid, pairwise
    disjoint blocks, the blocks it found and at most one more. *)
Lemma alloc_spans : forall a bytes m,
  Forall span_ok (blocks (chain a)) -> separated (blocks (chain a)) ->
  malloc_ok a bytes m ->
  Forall span_ok (blocks (chain (fst (arena_alloc a bytes m)))) /\
  separated (blocks (chain (fst (arena_alloc a bytes m)))) /\
  total_capacity (chain a)
    <= total_capacity (chain (fst (arena_alloc a bytes m))).
Proof.
  intros a bytes m Hok Hsep Hm.
  destruct (alloc_inv a bytes m) as [H | c' Hz Hfit Hc | c' Hz Hgrow Hn Hp Hc];
    cbn [chain set_chain].
  - repeat split; (assumption || lia).
  - rewrite total_capacity_sum, (total_capacity_sum c'), Hc.
    rewrite blocks_split in Hok, Hsep |- *.
    split; [|split].
    + eapply spans_same_span; [|exact Hok]. apply same_span_set_bump.
    + eapply separated_same_span; [|exact Hsep]. apply same_span_set_bump.
    + rewrite !sum_caps_app. unfold sum_caps, capacity. simpl. lia.
  - rewrite total_capacity_sum, (total_capacity_sum c'), Hc.
    destruct Hm as [Hm | (Hf1 & Hf2 & Hf3 & Hf4 & Hf5)]; [contradiction|].
    destruct (request_size_ge a bytes) as [_ Hge].
    unfold ARENA_DEFAULT_SIZE in Hge.
    split; [|split].
    + apply Forall_app. split; [assumption|]. constructor; [|constructor].
      unfold span_ok, capacity. simpl. lia.
    + apply separated_snoc; [assumption|].
      eapply Forall_impl; [|exact Hf5].
      intros x Hx. unfold disjoint in *. simpl in *. lia.
    + rewrite sum_caps_app. unfold sum_caps at 3, capacity. simpl. lia.
Qed.

Lemma alloc_all_spans : forall reqs a,
  Forall span_ok (blocks (chain a)) -> separated (blocks (chain a)) ->
  allocs_ok a reqs ->
  Forall span_ok (blocks (chain (alloc_all a reqs))) /\
  separated (blocks (chain (alloc_all a reqs))) /\
  markers (alloc_all a reqs) = markers a /\
  total_capacity (chain a) <= total_capacity (chain (alloc_all a reqs)).
Proof.
  induction reqs as [|[bytes m] t IH]; intros a Hok Hsep Hreqs; simpl in *.
  - repeat split; (assumption || lia).
  - destruct Hreqs as (_ & Hm & Ht).
    destruct (alloc_spans a bytes m Hok Hsep Hm) as (H1 & H2 & H3).
    destruct (IH _ H1 H2 Ht) as (H4 & H5 & H6 & H7).
    destruct (alloc_markers a bytes m) as [E _].
    repeat split; try assumption; [congruence | lia].
Qed.

(** When its pointer sum does not wrap, [arena_alloc] keeps the arena
    well-formed. *)
Lemma alloc_wf : forall a bytes m,
  wf a -> no_wrap a bytes -> malloc_ok a bytes m ->
  wf (fst (arena_alloc a bytes m)).
Proof.
  intros a bytes m Hwf Hnw Hm.
  pose proof (last_block_ok (chain a) (proj1 Hwf)) as Hlast.
  destruct (align_up_bounds bytes) as [Hal _].
  destruct Hwf as (Hok & Hsep & Hmk).
  destruct (alloc_inv_exact a bytes m Hlast Hnw Hm)
    as [H | c' Hz Hfit Hc | c' Hz Hgrow Hn Hp Hc].
  - repeat split; assumption.
  - unfold wf. simpl. rewrite Hc.
    rewrite blocks_split in Hok, Hsep.
    repeat split; try assumption.
    + apply ok_set_bump; [assumption|].
      unfold block_ok in Hlast. lia.
    + eapply separated_same_span; [|exact Hsep].
      apply same_span_set_bump.
  - unfold wf. simpl. rewrite Hc.
    destruct Hm as [Hm | (Hf1 & Hf2 & Hf3 & Hf4 & Hf5)]; [contradiction|].
    destruct (request_size_ge a bytes) as [Hge _].
    repeat split; try assumption.
    + apply Forall_app. split; [assumption|]. constructor; [|constructor].
      unfold block_ok, capacity. simpl. lia.
    + apply separated_snoc; [assumption|].
      eapply Forall_impl; [|exact Hf5].
      intros x Hx. unfold disjoint in *. simpl in *. lia.
Qed.


Lemma alloc_all_wf : forall reqs a,
  wf a -> allocs_ok a reqs -> allocs_in_range a reqs ->
  wf (alloc_all a reqs).
Proof.
  induction reqs as [|[bytes m] t IH]; intros a Hwf Hok Hnw; simpl in *.
  - assumption.
  - destruct Hok as (Hs & Hm & Ht). destruct Hnw as [Hn1 Hn2].
    apply IH; [now apply alloc_wf | assumption | assumption].
Qed.

(** ** Markers *)

Lemma position_loop_range : forall c acc, is_size (position_loop acc c).
Proof. induction c; intros; simpl; [apply sz_range | apply IHc]. Qed.

Lemma push_marker_recorded : forall a new_markers,
  marker_count a <> marker_cap a \/ new_markers <> NULL ->
  chain (arena_push_marker a new_markers) = chain a /\
  markers (arena_push_marker a new_markers)
  = markers a ++ [get_current_position a].
Proof.
  intros a nm H. unfold arena_push_marker.
  destruct (Z.eqb_spec (marker_count a) (marker_cap a)); [|split; reflexivity].
  destruct (Z.eqb_spec nm NULL); [tauto | split; reflexivity].
Qed.

Lemma push_marker_cases : forall a new_markers,
  arena_push_marker a new_markers = a \/
  (chain (arena_push_marker a new_markers) = chain a /\
   markers (arena_push_marker a new_markers)
   = markers a ++ [get_current_position a]).
Proof.
  intros a nm. unfold arena_push_marker.
  destruct (marker_count a =? marker_cap a); [|right; split; reflexivity].
  destruct (nm =? NULL); [now left | right; split; reflexivity].
Qed.

Lemma push_marker_wf : forall a new_markers,
  wf a -> wf (arena_push_marker a new_markers).
Proof.
  intros a nm Hwf.
  destruct (push_marker_cases a nm) as [-> | [Ec Em]]; [assumption|].
  destruct Hwf as (Hok & Hsep & Hm). unfold wf. rewrite Ec, Em.
  repeat split; try assumption.
  apply Forall_app. split; [assumption|].
  constructor; [apply position_loop_range | constructor].
Qed.

(** ** Global offsets of addresses *)

Lemma offset_from_tail : forall c acc p,
  separated (blocks c) ->
  base (get_last_block c) <= p < end_ (get_last_block c) ->
  offset_from acc c p
  = Some (acc + sum_caps (front c) + (p - base (get_last_block c))).
Proof.
  induction c; intros acc p Hsep Hp; simpl in *.
  - destruct (Z.leb_spec (base b) p); [|lia].
    destruct (Z.leb_spec p (end_ b)); [|lia].
    simpl. f_equal. lia.
  - destruct Hsep as [Hd Hs].
    assert (Hin : In (get_last_block c) (blocks c)).
    { rewrite blocks_split. apply in_or_app. right. now left. }
    rewrite Forall_forall in Hd. specialize (Hd _ Hin).
    unfold holds.
    destruct (Z.geb_spec p (base b)); destruct (Z.ltb_spec p (end_ b));
      simpl; try (unfold disjoint in Hd; lia).
    all: rewrite IHc by assumption.
    all: unfold front; simpl; destruct (blocks c) eqn:E; [now destruct c|].
    all: simpl; f_equal; lia.
Qed.

(** ** C1: rewind exactness *)

(** C1 (as amended).  For every well-formed arena (the state after the
    allocations A1), when [arena_push_marker] records its marker, any run A2
    of allocations followed by [arena_pop_marker] brings the global position
    back to the position before A2 and leaves the earlier markers as they
    were; and the next allocation whose non-empty aligned size fits in the
    room left in the tail block returns the address at exactly that global
    offset. *)
Theorem rewind_exactness : forall a new_markers reqs,
  wf a ->
  marker_count a <> marker_cap a \/ new_markers <> NULL ->
  allocs_ok (arena_push_marker a new_markers) reqs ->
  let a3 := arena_pop_marker
              (alloc_all (arena_push_marker a new_markers) reqs) in
  get_current_position a3 = get_current_position a /\
  markers a3 = markers a /\
  forall bytes m,
    bytes <> 0 ->
    0 < align_up bytes ARENA_ALIGNMENT ->
    bump (get_last_block (chain a3)) + align_up bytes ARENA_ALIGNMENT
      <= end_ (get_last_block (chain a3)) ->
    snd (arena_alloc a3 bytes m) <> NULL /\
    global_offset (chain (fst (arena_alloc a3 bytes m)))
                  (snd (arena_alloc a3 bytes m))
    = Some (get_current_position a).
Proof.
  intros a nm reqs Hwf Hpush Hreqs a3.
  destruct (push_marker_recorded a nm Hpush) as [Ec Em].
  pose proof (wf_spans a Hwf) as Hsp.
  pose proof (proj1 (proj2 Hwf)) as Hsep.
  destruct (alloc_all_spans reqs (arena_push_marker a nm))
    as (Hsp2 & Hsep2 & Em2 & Hcap); try (rewrite Ec; assumption);
    try assumption.
  rewrite Em in Em2. rewrite Ec in Hcap.
  pose proof (position_bounds (chain a) (proj1 Hwf)) as Hpb.
  rewrite (get_current_position_exact a Hwf) in *.
  destruct (pop_marker_top _ (markers a) (position (chain a))
              Hsp2 Hsep2 ltac:(lia) Em2)
    as (Em3 & Hsp3 & Hsep3 & Hpos & _).
  fold a3 in Em3, Hsp3, Hsep3, Hpos.
  destruct (Hpos ltac:(lia)) as [Hp3 Ht3]. clear Hpos.
  rewrite (get_current_position_span a3 Hsp3 Hsep3 Ht3).
  split; [assumption | split; [assumption|]].
  intros bytes m Hz Hal Hfit.
  pose proof (last_block_span _ Hsp3) as Hlast.
  unfold tail_ok in Ht3.
  destruct (alloc_fit_exact a3 bytes m Hz) as (c' & E & Hc);
    try assumption; try (unfold span_ok in Hlast; lia).
  rewrite E. simpl. split.
  - unfold NULL, span_ok in *. lia.
  - unfold global_offset. rewrite offset_from_tail.
    + rewrite (front_app_one _ _ _ Hc), (last_app_one _ _ _ Hc). simpl.
      rewrite <- Hp3, position_sum. f_equal; lia.
    + rewrite Hc. rewrite blocks_split in Hsep3.
      eapply separated_same_span; [|exact Hsep3]. apply same_span_set_bump.
    + rewrite (last_app_one _ _ _ Hc). simpl. lia.
Qed.

Lemma arena_1024_created : arena_create 1024 64 4096 128 = Some arena_1024.
Proof. reflexivity. Qed.

Lemma arena_1024_wf : wf arena_1024.
Proof. unfold arena_1024. concrete. Qed.

Lemma rewind_exactness_witness :
  get_current_position
    (arena_pop_marker
       (alloc_all (arena_push_marker arena_1024 NULL) [(8, no_memory)]))
  = get_current_position arena_1024 /\
  global_offset
    (chain (fst (arena_alloc
       (arena_pop_marker
          (alloc_all (arena_push_marker arena_1024 NULL) [(8, no_memory)]))
       16 no_memory)))
    (snd (arena_alloc
       (arena_pop_marker
          (alloc_all (arena_push_marker arena_1024 NULL) [(8, no_memory)]))
       16 no_memory))
  = Some (get_current_position arena_1024).
Proof.
  destruct (rewind_exactness arena_1024 NULL [(8, no_memory)])
    as (H1 & _ & H3).
  - exact arena_1024_wf.
  - left. vm_compute. discriminate.
  - simpl. split; [|split; [|exact I]].
    + unfold is_size, SIZE_MAX. lia.
    + left. reflexivity.
  - split; [exact H1|].
    apply (H3 16 no_memory).
    + discriminate.
    + vm_compute. reflexivity.
    + vm_compute. discriminate.
Defined.

(** In the run create(1024); alloc(1000); push; alloc(8); pop; alloc(100) the
    last request does not fit in the 24 bytes left in the root block: a new
    block is chained and the region starts at global offset 1024, not at the
    restored position 1000. *)
Lemma rewind_next_alloc_counterexample :
  let a := fst (arena_alloc arena_1024 1000 no_memory) in
  let a1 := arena_push_marker a NULL in
  let a3 := arena_pop_marker (alloc_all a1 [(8, no_memory)]) in
  let m := mkMalloc 64 8192 in
  wf a /\ malloc_ok a3 100 m /\
  get_current_position a1 = 1000 /\
  get_current_position a3 = 1000 /\
  snd (arena_alloc a3 100 m) = 8192 /\
  global_offset (chain (fst (arena_alloc a3 100 m))) (snd (arena_alloc a3 100 m))
  = Some 1024 /\
  global_offset (chain (fst (arena_alloc a3 100 m))) (snd (arena_alloc a3 100 m))
  <> Some (get_current_position a1).
Proof.
  cbv zeta. split; [|split; [|split; [|split; [|split; [|split]]]]].
  - apply alloc_wf; [exact arena_1024_wf | | left; reflexivity].
    unfold no_wrap. by_evaluation.
  - right. unfold request_size.
    match goal with |- fresh ?l _ ?n => evaluate l; evaluate n end.
    concrete.
  - vm_compute. reflexivity.
  - vm_compute. reflexivity.
  - vm_compute. reflexivity.
  - vm_compute. reflexivity.
  - vm_compute. discriminate.
Qed.

(** ** C3: growth sizing *)





(** ** C5: bump monotonicity and alignment *)

Lemma aligned_add : forall p n,
  p mod ARENA_ALIGNMENT = 0 -> n mod ARENA_ALIGNMENT = 0 ->
  (p + n) mod ARENA_ALIGNMENT = 0.
Proof.
  unfold ARENA_ALIGNMENT. intros p n Hp Hn.
  rewrite Z.add_mod, Hp, Hn by lia. reflexivity.
Qed.




(** When its pointer sum does not wrap, the region [arena_alloc] returns
    lies in the tail of the chain it leaves, just below the bump pointer. *)
Lemma alloc_region : forall a bytes m,
  wf a -> no_wrap a bytes -> malloc_ok a bytes m ->
  snd (arena_alloc a bytes m) <> NULL ->
  0 < base (get_last_block (chain (fst (arena_alloc a bytes m))))
    <= snd (arena_alloc a bytes m) /\
  snd (arena_alloc a bytes m) + align_up bytes ARENA_ALIGNMENT
  = bump (get_last_block (chain (fst (arena_alloc a bytes m)))) /\
  bump (get_last_block (chain (fst (arena_alloc a bytes m))))
  <= end_ (get_last_block (chain (fst (arena_alloc a bytes m)))) /\
  end_ (get_last_block (chain (fst (arena_alloc a bytes m)))) <= SIZE_MAX.
Proof.
  intros a bytes m Hwf Hnw Hm Hp.
  pose proof (last_block_ok _ (proj1 Hwf)) as Hlast.
  pose proof (alloc_wf a bytes m Hwf Hnw Hm) as Hwf'.
  pose proof (last_block_ok _ (proj1 Hwf')) as Hlast'.
  destruct (align_up_bounds bytes) as [Hal _].
  destruct (alloc_inv_exact a bytes m Hlast Hnw Hm)
    as [H | c' Hz Hfit Hc | c' Hz Hgrow Hn Hb Hc];
    [contradiction | |];
    cbn [chain set_chain] in *;
    rewrite (last_app_one _ _ _ Hc) in *;
    unfold block_ok in *; cbn [base bump end_ set_bump] in *; lia.
Qed.

Lemma create_aligned : forall initial_size node base_p markers_p a,
  fresh [] base_p (create_size initial_size) ->
  arena_create initial_size node base_p markers_p = Some a ->
  aligned a.
Proof.
  intros size node p mp a (_ & Hp & _) E.
  unfold arena_create in E.
  destruct (node =? NULL); [discriminate|].
  destruct (p =? NULL); [discriminate|].
  destruct (mp =? NULL); [discriminate|].
  injection E as <-. unfold aligned. simpl.
  constructor; [split; assumption | constructor].
Qed.





(** ** The operations built on [arena_alloc] *)

Lemma calloc_alloc : forall a mem num size m,
  fst (fst (arena_calloc a mem num size m))
  = fst (arena_alloc a (sz (num * size)) m) /\
  snd (arena_calloc a mem num size m)
  = snd (arena_alloc a (sz (num * size)) m).
Proof.
  intros. unfold arena_calloc.
  destruct (arena_alloc a (sz (num * size)) m) as [a' p].
  destruct (p =? NULL); split; reflexivity.
Qed.

Lemma strdup_alloc : forall a mem s m,
  fst (fst (arena_strdup a mem (Some s) m))
  = fst (arena_alloc a (sz (strlen s + 1)) m) /\
  snd (arena_strdup a mem (Some s) m)
  = snd (arena_alloc a (sz (strlen s + 1)) m).
Proof.
  intros. unfold arena_strdup.
  destruct (arena_alloc a (sz (strlen s + 1)) m) as [a' p].
  destruct (p =? NULL); split; reflexivity.
Qed.

Lemma realloc_copy_alloc : forall a mem ptr old_size new_size m,
  new_size <> 0 -> ptr <> NULL ->
  realloc_loop (chain a) ptr (align_up old_size ARENA_ALIGNMENT)
               (align_up new_size ARENA_ALIGNMENT) = None ->
  fst (fst (arena_realloc a mem ptr old_size new_size m))
  = fst (arena_alloc a (align_up new_size ARENA_ALIGNMENT) m) /\
  snd (arena_realloc a mem ptr old_size new_size m)
  = snd (arena_alloc a (align_up new_size ARENA_ALIGNMENT) m).
Proof.
  intros a mem ptr old new m Hn Hp Hloop. unfold arena_realloc.
  destruct (Z.eqb_spec new 0); [contradiction|].
  destruct (Z.eqb_spec ptr NULL); [contradiction|].
  rewrite Hloop.
  destruct (arena_alloc a (align_up new ARENA_ALIGNMENT) m) as [a' p].
  destruct (p =? NULL); split; reflexivity.
Qed.

Lemma realloc_null : forall a mem old_size new_size m,
  arena_realloc a mem NULL old_size new_size m
  = (fst (arena_alloc a new_size m), mem, snd (arena_alloc a new_size m)).
Proof.
  intros. unfold arena_realloc. destruct (Z.eqb_spec new_size 0) as [->|Hn].
  - reflexivity.
  - simpl. now destruct (arena_alloc a new_size m).
Qed.

Lemma malloc_ok_aligned : forall a bytes m,
  malloc_ok a bytes m -> malloc_ok a (align_up bytes ARENA_ALIGNMENT) m.
Proof.
  unfold malloc_ok, request_size. intros a bytes m H.
  now rewrite align_up_idem.
Qed.

Lemma no_wrap_aligned : forall a bytes,
  no_wrap a bytes -> no_wrap a (align_up bytes ARENA_ALIGNMENT).
Proof. unfold no_wrap. intros a bytes H. now rewrite align_up_idem. Qed.

(** ** Reallocation *)

Lemma resize_in_place_some : forall b ptr old_size new_size b',
  resize_in_place b ptr old_size new_size = Some b' ->
  b' = set_bump b (ptr_add ptr new_size).
Proof.
  intros b ptr old new b'. unfold resize_in_place.
  destruct (ptr_add ptr old =? bump b); [|discriminate].
  destruct (ptr_add (bump b) _ <=? end_ b); [now intros [= <-]|].
  destruct (new <? old); [now intros [= <-] | discriminate].
Qed.

(** The in-place test when no pointer sum wraps. *)
Lemma resize_in_place_iff : forall b ptr old_size new_size b',
  block_ok b -> 0 <= ptr -> 0 <= old_size -> 0 <= new_size ->
  ptr + old_size <= SIZE_MAX -> ptr + new_size <= SIZE_MAX ->
  (resize_in_place b ptr old_size new_size = Some b' <->
   ptr + old_size = bump b /\ ptr + new_size <= end_ b /\
   b' = set_bump b (ptr + new_size)).
Proof.
  intros b ptr old new b' Hok Hp Ho Hn Hso Hsn.
  unfold resize_in_place, block_ok in *.
  rewrite (ptr_add_exact ptr old), (ptr_add_exact ptr new) by lia.
  destruct (Z.eqb_spec (ptr + old) (bump b)) as [E|E];
    [|split; [discriminate | tauto]].
  destruct (Z.gtb_spec new old) as [Hgt|Hle].
  - rewrite sz_small by lia.
    rewrite ptr_add_exact by lia.
    destruct (Z.leb_spec (bump b + (new - old)) (end_ b)).
    + split; [intros [= <-]; repeat split; (reflexivity || lia)|].
      intros (_ & _ & ->). reflexivity.
    + destruct (Z.ltb_spec new old); [lia|].
      split; [discriminate | lia].
  - rewrite ptr_add_exact by lia.
    destruct (Z.leb_spec (bump b + 0) (end_ b)); [|lia].
    split; [intros [= <-]; repeat split; (reflexivity || lia)|].
    intros (_ & _ & ->). reflexivity.
Qed.

(** When the search resizes in place, exactly one block changes, the first
    one that holds [ptr], and only in its bump pointer. *)
Lemma realloc_loop_span : forall c ptr old_size new_size c',
  realloc_loop c ptr old_size new_size = Some c' ->
  exists l b r,
    blocks c = l ++ b :: r /\
    blocks c' = l ++ set_bump b (ptr_add ptr new_size) :: r /\
    Forall (fun x => holds x ptr = false) l /\
    holds b ptr = true /\
    resize_in_place b ptr old_size new_size
    = Some (set_bump b (ptr_add ptr new_size)).
Proof.
  induction c; intros ptr old new c' H; simpl in *.
  - destruct (holds b ptr) eqn:Hh; [|discriminate].
    destruct (resize_in_place b ptr old new) as [b'|] eqn:E; [|discriminate].
    pose proof (resize_in_place_some _ _ _ _ _ E) as ->.
    injection H as <-.
    exists [], b, []. simpl. repeat split; auto.
  - destruct (holds b ptr) eqn:Hh.
    + destruct (resize_in_place b ptr old new) as [b'|] eqn:E; [|discriminate].
      pose proof (resize_in_place_some _ _ _ _ _ E) as ->.
      injection H as <-.
      exists [], b, (blocks c). simpl. repeat split; auto.
    + destruct (realloc_loop c ptr old new) as [c0|] eqn:E; [|discriminate].
      injection H as <-.
      destruct (IHc ptr old new c0 E)
        as (l & b0 & r & E1 & E2 & E3 & E4 & E5).
      exists (b :: l), b0, r. simpl. rewrite E1, E2.
      repeat split; try assumption. constructor; assumption.
Qed.

Lemma realloc_loop_some : forall c ptr old_size new_size c',
  Forall block_ok (blocks c) ->
  0 <= ptr -> 0 <= old_size -> 0 <= new_size ->
  ptr + old_size <= SIZE_MAX -> ptr + new_size <= SIZE_MAX ->
  realloc_loop c ptr old_size new_size = Some c' ->
  exists l b r,
    blocks c = l ++ b :: r /\
    blocks c' = l ++ set_bump b (ptr + new_size) :: r /\
    Forall (fun x => holds x ptr = false) l /\
    holds b ptr = true /\
    ptr + old_size = bump b /\ ptr + new_size <= end_ b.
Proof.
  intros c ptr old new c' Hok Hp Ho Hn Hso Hsn H.
  destruct (realloc_loop_span _ _ _ _ _ H) as (l & b & r & E1 & E2 & E3 & E4 & E5).
  assert (Hb : block_ok b).
  { rewrite E1 in Hok. apply Forall_app in Hok. destruct Hok as [_ Hok].
    now inversion Hok. }
  apply resize_in_place_iff in E5; try assumption.
  destruct E5 as (E5 & E6 & _).
  rewrite (ptr_add_exact ptr new) in E2 by lia.
  exists l, b, r. repeat split; assumption.
Qed.

(** The search stops at the first block holding [ptr]. *)
Lemma realloc_loop_at : forall c ptr old_size new_size l b r,
  blocks c = l ++ b :: r ->
  Forall (fun x => holds x ptr = false) l ->
  holds b ptr = true ->
  match resize_in_place b ptr old_size new_size with
  | Some b' =>
      exists c', realloc_loop c ptr old_size new_size = Some c' /\
                 blocks c' = l ++ b' :: r
  | None => realloc_loop c ptr old_size new_size = None
  end.
Proof.
  induction c; intros ptr old new l b0 r E Hl Hh; simpl in *.
  - destruct l as [|x l]; simpl in E.
    + injection E as <- <-. rewrite Hh.
      destruct (resize_in_place b ptr old new); simpl; eauto.
    + injection E as _ E. now destruct l.
  - destruct l as [|x l]; simpl in E.
    + injection E as <- <-. rewrite Hh.
      destruct (resize_in_place b ptr old new); simpl; eauto.
    + injection E as <- E. inversion Hl; subst.
      match goal with H : holds b ptr = false |- _ => rewrite H end.
      specialize (IHc ptr old new l b0 r E ltac:(assumption) Hh).
      destruct (resize_in_place b0 ptr old new).
      * destruct IHc as (c' & -> & Ec). simpl. eexists. split; [reflexivity|].
        simpl. now rewrite Ec.
      * now rewrite IHc.
Qed.

Lemma holds_iff : forall b p, holds b p = true <-> base b <= p < end_ b.
Proof.
  intros b p. unfold holds.
  rewrite andb_true_iff, Z.geb_le, Z.ltb_lt. tauto.
Qed.

Lemma holds_false_iff : forall b p,
  holds b p = false <-> ~ (base b <= p < end_ b).
Proof.
  intros b p. rewrite <- holds_iff. destruct (holds b p); split; congruence.
Qed.

(** In a chain of pairwise disjoint blocks, the block holding an address is
    the only one. *)
Lemma holder_split : forall l b p,
  separated l -> In b l -> holds b p = true ->
  exists l1 l2, l = l1 ++ b :: l2 /\
                Forall (fun x => holds x p = false) l1 /\
                Forall (fun x => holds x p = false) l2.
Proof.
  induction l as [|x t IH]; intros b p Hsep Hin Hh; [contradiction|].
  simpl in Hsep. destruct Hsep as [Hd Hs].
  apply holds_iff in Hh.
  destruct Hin as [->|Hin].
  - exists [], t. repeat split; [constructor|].
    eapply Forall_impl; [|exact Hd]. intros y Hy.
    apply holds_false_iff. unfold disjoint in Hy. lia.
  - destruct (IH b p Hs Hin) as (l1 & l2 & -> & H1 & H2);
      [now apply holds_iff|].
    exists (x :: l1), l2. repeat split; [|assumption].
    constructor; [|assumption].
    apply holds_false_iff. rewrite Forall_forall in Hd.
    specialize (Hd b ltac:(apply in_or_app; right; now left)).
    unfold disjoint in Hd. lia.
Qed.

(** ** C10: tail-only allocation *)

(** C10 (as amended).  A region returned by [arena_alloc] in a well-formed
    arena, for a request of at most [SIZE_MAX - 7] bytes whose aligned size
    does not carry the bump pointer past the end of the address space, holds
    the bytes asked for and lies within one block, the tail of the chain the
    call leaves: either the tail it found, when the aligned request fits
    there, or the block it chains after it.  Every other block of the
    resulting chain is a block of the chain before the call, unchanged, and
    the region does not touch it; so the room left in a block that is no
    longer the tail is not handed out by [arena_alloc].  [arena_calloc],
    [arena_strdup] and the copy path of [arena_realloc] return what
    [arena_alloc] returns and leave the arena it leaves.  When
    [arena_realloc] resizes in place it returns [ptr] and moves the bump
    pointer of the block that holds [ptr], whichever block of the chain that
    is, and changes nothing else. *)
Theorem tail_only_allocation : forall a bytes m,
  wf a -> malloc_ok a bytes m ->
  let a' := fst (arena_alloc a bytes m) in
  let p := snd (arena_alloc a bytes m) in
  let al := align_up bytes ARENA_ALIGNMENT in
  let last := get_last_block (chain a) in
  let last' := get_last_block (chain a') in
  (0 <= bytes <= SIZE_MAX - 7 -> no_wrap a bytes -> p <> NULL ->
   (base last' <= p /\ p + bytes <= p + al /\ p + al = bump last' /\
    bump last' <= end_ last') /\
   ((p = bump last /\ last' = set_bump last (p + al) /\
     front (chain a') = front (chain a))
    \/
    (end_ last < bump last + al /\ p = base last' /\
     front (chain a') = blocks (chain a))) /\
   (forall b, In b (front (chain a')) ->
      In b (blocks (chain a)) /\ (p + al <= base b \/ end_ b <= p))) /\
  (forall mem num size,
     fst (fst (arena_calloc a mem num size m))
     = fst (arena_alloc a (sz (num * size)) m) /\
     snd (arena_calloc a mem num size m)
     = snd (arena_alloc a (sz (num * size)) m)) /\
  (forall mem s,
     fst (fst (arena_strdup a mem (Some s) m))
     = fst (arena_alloc a (sz (strlen s + 1)) m) /\
     snd (arena_strdup a mem (Some s) m)
     = snd (arena_alloc a (sz (strlen s + 1)) m)) /\
  (forall mem ptr old_size new_size,
     new_size <> 0 -> ptr <> NULL ->
     realloc_loop (chain a) ptr (align_up old_size ARENA_ALIGNMENT)
                  (align_up new_size ARENA_ALIGNMENT) = None ->
     fst (fst (arena_realloc a mem ptr old_size new_size m))
     = fst (arena_alloc a (align_up new_size ARENA_ALIGNMENT) m) /\
     snd (arena_realloc a mem ptr old_size new_size m)
     = snd (arena_alloc a (align_up new_size ARENA_ALIGNMENT) m)) /\
  (forall mem ptr old_size new_size c',
     new_size <> 0 -> ptr <> NULL ->
     realloc_loop (chain a) ptr (align_up old_size ARENA_ALIGNMENT)
                  (align_up new_size ARENA_ALIGNMENT) = Some c' ->
     arena_realloc a mem ptr old_size new_size m = (set_chain a c', mem, ptr) /\
     exists l b r,
       blocks (chain a) = l ++ b :: r /\ holds b ptr = true /\
       blocks c'
       = l ++ set_bump b (ptr_add ptr (align_up new_size ARENA_ALIGNMENT))
           :: r).
Proof.
  intros a bytes m Hwf Hm a' p al last last'.
  split; [|split; [|split; [|split]]];
    [| intros; apply calloc_alloc | intros; apply strdup_alloc
     | intros; now apply realloc_copy_alloc |].
  - intros Hbytes Hnw Hp. subst last' al last.
    pose proof (last_block_ok _ (proj1 Hwf)) as Hlast.
    pose proof (alloc_inv_exact a bytes m Hlast Hnw Hm) as Hinv.
    fold a' p in Hinv.
    pose proof (alloc_wf a bytes m Hwf Hnw Hm) as Hwf'. fold a' in Hwf'.
    pose proof (align_up_fits bytes Hbytes) as Hal.
    destruct (request_size_ge a bytes) as [Hge _].
    pose proof (front_disjoint_last (chain a')) as Hdisj.
    destruct Hwf' as (_ & Hsep' & _). specialize (fun b => Hdisj b Hsep').
    clearbody a' p.
    destruct Hinv as [H | c' Hz Hfit Hc | c' Hz Hgrow Hn Hb Hc];
      [contradiction | |];
      cbn [chain set_chain] in *;
      rewrite (last_app_one _ _ _ Hc) in *;
      rewrite (front_app_one _ _ _ Hc) in *; cbn [base bump end_ set_bump] in *.
    + split; [unfold block_ok in Hlast; lia|].
      split; [left; split; [reflexivity | split; reflexivity]|].
      intros b Hb. split.
      * rewrite (blocks_split (chain a)). apply in_or_app. now left.
      * specialize (Hdisj b Hb). unfold disjoint, block_ok in *.
        cbn [base bump end_ set_bump] in *. lia.
    + split; [lia|].
      split; [right; split; [assumption | split; reflexivity]|].
      intros b Hin. split; [assumption|].
      specialize (Hdisj b Hin). unfold disjoint in *.
      cbn [base bump end_] in *. lia.
  - intros mem ptr old new c' Hn Hp El. split.
    + unfold arena_realloc.
      destruct (Z.eqb_spec new 0); [contradiction|].
      destruct (Z.eqb_spec ptr NULL); [contradiction|].
      now rewrite El.
    + destruct (realloc_loop_span _ _ _ _ _ El)
        as (l & b & r & E1 & E2 & _ & E4 & _).
      exists l, b, r. auto.
Qed.

Lemma tail_only_allocation_witness :
  let m := mkMalloc 64 8192 in
  let a' := fst (arena_alloc arena_1024 3000 m) in
  let p := snd (arena_alloc arena_1024 3000 m) in
  base (get_last_block (chain a')) <= p /\
  p + 3000 <= p + align_up 3000 ARENA_ALIGNMENT /\
  p + align_up 3000 ARENA_ALIGNMENT = bump (get_last_block (chain a')) /\
  bump (get_last_block (chain a')) <= end_ (get_last_block (chain a')).
Proof.
  cbv zeta.
  destruct (tail_only_allocation arena_1024 3000 (mkMalloc 64 8192))
    as (H & _).
  - exact arena_1024_wf.
  - right. unfold request_size.
    match goal with |- fresh ?l _ ?n => evaluate l; evaluate n end.
    concrete.
  - apply H.
    + unfold SIZE_MAX. lia.
    + unfold no_wrap. by_evaluation.
    + by_evaluation.
Defined.

(** After create(1024), alloc(8) at address 4096 and alloc(3000), which
    chains a second block, the first block is no longer the tail and has
    1016 bytes left.  [arena_realloc(4096, 8, 100)] grows the first
    allocation in place: it returns 4096 and moves the bump pointer of the
    first block from 4104 to 4200, so the region handed out takes 96 bytes
    of the room left in a block that is not the tail. *)
Lemma tail_only_counterexample :
  let a := fst (arena_alloc arena_8 3000 (mkMalloc 64 8192)) in
  let r := arena_realloc a zero_mem 4096 8 100 no_memory in
  fst (arena_alloc arena_1024 8 no_memory) = arena_8 /\
  wf arena_8 /\ malloc_ok arena_8 3000 (mkMalloc 64 8192) /\
  blocks (chain a)
  = [mkBlock 4096 4104 5120; mkBlock 8192 11192 1056768] /\
  get_last_block (chain a) = mkBlock 8192 11192 1056768 /\
  snd r = 4096 /\
  holds (get_last_block (chain a)) (snd r) = false /\
  blocks (chain (fst (fst r)))
  = [mkBlock 4096 4200 5120; mkBlock 8192 11192 1056768].
Proof.
  cbv zeta.
  repeat match goal with |- _ /\ _ => split end.
  - by_evaluation.
  - unfold arena_8. concrete.
  - right. unfold request_size.
    match goal with |- fresh ?l _ ?n => evaluate l; evaluate n end.
    concrete.
  - by_evaluation.
  - by_evaluation.
  - by_evaluation.
  - by_evaluation.
  - by_evaluation.
Qed.

(** ** Copying *)

Lemma memcpy_loop_frame : forall n m dst src q,
  0 <= dst -> dst + Z.of_nat n <= SIZE_MAX + 1 ->
  q < dst \/ dst + Z.of_nat n <= q ->
  memcpy_loop m dst src n q = m q.
Proof.
  induction n; intros m dst src q H0 Hn Hq; [reflexivity|].
  cbn [memcpy_loop]. rewrite Nat2Z.inj_succ in Hn, Hq.
  destruct n as [|k].
  - cbn [memcpy_loop]. unfold store.
    destruct (Z.eqb_spec q dst); [lia | reflexivity].
  - rewrite Nat2Z.inj_succ in Hn, Hq.
    rewrite (ptr_add_exact dst 1) by lia.
    rewrite IHn by (rewrite ?Nat2Z.inj_succ; lia). unfold store.
    destruct (Z.eqb_spec q dst); [lia | reflexivity].
Qed.

Lemma memcpy_loop_copies : forall n m dst src i,
  0 <= dst -> 0 <= src ->
  dst + Z.of_nat n <= SIZE_MAX + 1 -> src + Z.of_nat n <= SIZE_MAX + 1 ->
  dst + Z.of_nat n <= src \/ src + Z.of_nat n <= dst ->
  0 <= i < Z.of_nat n ->
  memcpy_loop m dst src n (dst + i) = m (src + i).
Proof.
  induction n; intros m dst src i Hd0 Hs0 Hdn Hsn Hd Hi; [simpl in Hi; lia|].
  cbn [memcpy_loop]. rewrite Nat2Z.inj_succ in Hdn, Hsn, Hd, Hi.
  destruct (Z.eq_dec i 0) as [->|Hi0].
  - rewrite !Z.add_0_r.
    destruct n as [|k].
    + cbn [memcpy_loop]. unfold store. now rewrite Z.eqb_refl.
    + rewrite Nat2Z.inj_succ in Hdn, Hsn, Hd, Hi.
      rewrite (ptr_add_exact dst 1) by lia.
      rewrite memcpy_loop_frame by (rewrite ?Nat2Z.inj_succ; lia).
      unfold store. now rewrite Z.eqb_refl.
  - rewrite (ptr_add_exact dst 1), (ptr_add_exact src 1) by lia.
    replace (dst + i) with (dst + 1 + (i - 1)) by lia.
    rewrite IHn by lia. unfold store.
    destruct (Z.eqb_spec (src + 1 + (i - 1)) dst); [lia|].
    f_equal. lia.
Qed.

Lemma memcpy_copies : forall m dst src n i,
  0 <= dst -> 0 <= src ->
  dst + n <= SIZE_MAX + 1 -> src + n <= SIZE_MAX + 1 ->
  dst + n <= src \/ src + n <= dst ->
  0 <= i < n ->
  memcpy m dst src n (dst + i) = m (src + i).
Proof.
  intros. unfold memcpy. apply memcpy_loop_copies; lia.
Qed.

(** Without wrap-around the region [arena_alloc] returns touches no part of
    a block that was in use before the call. *)
Lemma alloc_fresh_region : forall a bytes m b,
  wf a -> no_wrap a bytes -> malloc_ok a bytes m ->
  snd (arena_alloc a bytes m) <> NULL ->
  In b (blocks (chain a)) ->
  snd (arena_alloc a bytes m) + align_up bytes ARENA_ALIGNMENT <= base b \/
  bump b <= snd (arena_alloc a bytes m).
Proof.
  intros a bytes m b Hwf Hnw Hm Hp Hb.
  pose proof (last_block_ok _ (proj1 Hwf)) as Hlast.
  destruct (align_up_bounds bytes) as [Hal _].
  destruct (alloc_inv_exact a bytes m Hlast Hnw Hm)
    as [H | c' Hz Hfit Hc | c' Hz Hgrow Hn Hq Hc];
    [now contradiction Hp | |]; simpl.
  - rewrite blocks_split in Hb. apply in_app_or in Hb.
    destruct Hb as [Hb | [<- | []]]; [|lia].
    destruct Hwf as (Hok & Hsep & _).
    pose proof (front_disjoint_last _ _ Hsep Hb) as Hd.
    assert (Hbok : block_ok b).
    { rewrite Forall_forall in Hok. apply Hok.
      rewrite blocks_split. apply in_or_app. now left. }
    unfold disjoint, block_ok in *. lia.
  - destruct Hm as [Hm | (_ & _ & _ & _ & Hf)]; [contradiction|].
    rewrite Forall_forall in Hf. specialize (Hf b Hb).
    destruct Hwf as (Hok & _). rewrite Forall_forall in Hok.
    specialize (Hok b Hb).
    destruct (request_size_ge a bytes) as [Hge _].
    unfold disjoint, block_ok in *. simpl in *. lia.
Qed.

(** ** C2: in-place reallocation *)

(** C2 (as amended).  For a live region of [old_size > 0] bytes at [ptr] in
    block [b] of a well-formed arena and [new_size > 0] of at most
    [SIZE_MAX - 7] bytes, when neither [ptr + align_up(new_size)] nor the sum
    of the tail's bump pointer and [align_up(new_size)] passes the end of the
    address space,
    [arena_realloc] resizes in place exactly when [ptr + align_up(old_size)]
    is the bump pointer of [b] and [ptr + align_up(new_size)] does not pass
    the end of [b]; it then returns [ptr], moves only the bump pointer of
    [b] and leaves memory as it is.  In every other case it does what
    [arena_alloc(align_up(new_size))] does, and when that returns a region,
    the region does not overlap the old one and its first
    [min(old_size, new_size)] bytes are those of the old region. *)
Theorem realloc_in_place_eligibility : forall a mem ptr old_size new_size m b,
  wf a -> malloc_ok a new_size m ->
  In b (blocks (chain a)) ->
  0 < old_size -> 0 < new_size <= SIZE_MAX - 7 ->
  live b ptr old_size ->
  ptr + align_up new_size ARENA_ALIGNMENT <= SIZE_MAX ->
  no_wrap a new_size ->
  let al_o := align_up old_size ARENA_ALIGNMENT in
  let al_n := align_up new_size ARENA_ALIGNMENT in
  let r := arena_realloc a mem ptr old_size new_size m in
  let eligible := ptr + al_o = bump b /\ ptr + al_n <= end_ b in
  (realloc_loop (chain a) ptr al_o al_n <> None <-> eligible) /\
  (eligible ->
   exists l rest,
     blocks (chain a) = l ++ b :: rest /\
     blocks (chain (fst (fst r))) = l ++ set_bump b (ptr + al_n) :: rest /\
     markers (fst (fst r)) = markers a /\
     snd (fst r) = mem /\ snd r = ptr) /\
  (~ eligible ->
   fst (fst r) = fst (arena_alloc a al_n m) /\
   snd r = snd (arena_alloc a al_n m) /\
   (snd r <> NULL ->
    (snd r + al_n <= ptr \/ ptr + al_o <= snd r) /\
    forall i, 0 <= i < Z.min old_size new_size ->
      snd (fst r) (snd r + i) = mem (ptr + i))).
Proof.
  intros a mem ptr old new m b Hwf Hm Hb Ho Hn (Hl1 & Hl2 & Hl3) Hpn Hnw
         al_o al_n r eligible.
  fold al_o in Hl2, Hl3. fold al_n in Hpn.
  destruct (align_up_bounds old) as [Hbo _]. fold al_o in Hbo.
  destruct (align_up_bounds new) as [Hbn _]. fold al_n in Hbn.
  assert (Hbok : block_ok b).
  { destruct Hwf as (Hok & _). rewrite Forall_forall in Hok. now apply Hok. }
  assert (Hh : holds b ptr = true).
  { apply holds_iff. unfold block_ok in Hbok. lia. }
  assert (Hptr : ptr <> NULL) by (unfold NULL, block_ok in *; lia).
  assert (Hp0 : 0 <= ptr) by (unfold block_ok in *; lia).
  assert (Hpo : ptr + al_o <= SIZE_MAX) by (unfold block_ok in *; lia).
  destruct (holder_split _ b ptr (proj1 (proj2 Hwf)) Hb Hh)
    as (l1 & l2 & E & Hf1 & _).
  pose proof (realloc_loop_at (chain a) ptr al_o al_n l1 b l2 E Hf1 Hh) as Hat.
  assert (Hdec : eligible \/ ~ eligible) by (unfold eligible; lia).
  assert (Hloop : eligible ->
            exists c', realloc_loop (chain a) ptr al_o al_n = Some c' /\
                       blocks c' = l1 ++ set_bump b (ptr + al_n) :: l2).
  { intros [He1 He2].
    destruct (resize_in_place b ptr al_o al_n) as [b'|] eqn:Er.
    - apply resize_in_place_iff in Er; try assumption; try lia.
      destruct Er as (_ & _ & ->). exact Hat.
    - assert (Hsome : resize_in_place b ptr al_o al_n
                      = Some (set_bump b (ptr + al_n))).
      { apply resize_in_place_iff; try assumption; try lia.
        repeat split; assumption. }
      congruence. }
  assert (Hnone : ~ eligible -> realloc_loop (chain a) ptr al_o al_n = None).
  { intros Hne.
    destruct (resize_in_place b ptr al_o al_n) as [b'|] eqn:Er; [|exact Hat].
    apply resize_in_place_iff in Er; try assumption; try lia.
    exfalso. apply Hne. split; tauto. }
  split; [|split].
  - split.
    + intros Hsome. destruct Hdec as [He|Hne]; [assumption|].
      now rewrite (Hnone Hne) in Hsome.
    + intros He. destruct (Hloop He) as (c' & -> & _). discriminate.
  - intros He. destruct (Hloop He) as (c' & Ec & Hc').
    exists l1, l2. subst r. unfold arena_realloc.
    destruct (Z.eqb_spec new 0); [lia|].
    destruct (Z.eqb_spec ptr NULL); [contradiction|].
    fold al_o al_n. rewrite Ec. simpl. auto.
  - intros Hne. specialize (Hnone Hne).
    pose proof (malloc_ok_aligned a new m Hm) as Hm'. fold al_n in Hm'.
    pose proof (no_wrap_aligned a new Hnw) as Hnw'. fold al_n in Hnw'.
    pose proof (alloc_fresh_region a (align_up new ARENA_ALIGNMENT) m b
                  Hwf Hnw' Hm') as Hfresh.
    pose proof (alloc_region a (align_up new ARENA_ALIGNMENT) m
                  Hwf Hnw' Hm') as Hreg.
    rewrite align_up_idem in Hfresh, Hreg.
    fold al_n in Hfresh, Hreg.
    subst r. unfold arena_realloc.
    destruct (Z.eqb_spec new 0); [lia|].
    destruct (Z.eqb_spec ptr NULL); [contradiction|].
    fold al_o al_n. rewrite Hnone.
    destruct (arena_alloc a al_n m) as [a' q] eqn:Ea.
    cbn [fst snd] in Hfresh, Hreg |- *.
    destruct (Z.eqb_spec q NULL) as [Hq|Hq]; cbn [fst snd];
      (split; [reflexivity | split; [reflexivity|]]);
      [intros; contradiction|].
    intros _. specialize (Hfresh Hq Hb). specialize (Hreg Hq).
    split; [lia|].
    intros i Hi.
    assert (Hnew : new <= al_n) by (apply align_up_fits; lia).
    apply memcpy_copies;
      destruct (Z.ltb_spec al_o al_n); lia.
Qed.

Lemma arena_8_alloc : fst (arena_alloc arena_1024 8 no_memory) = arena_8.
Proof. by_evaluation. Qed.

Lemma arena_8_wf : wf arena_8.
Proof. unfold arena_8. concrete. Qed.

Lemma realloc_in_place_eligibility_witness :
  snd (arena_realloc arena_8 zero_mem 4096 8 16 no_memory) = 4096.
Proof.
  destruct (realloc_in_place_eligibility arena_8 zero_mem
              4096 8 16 no_memory (mkBlock 4096 4104 5120))
    as (_ & H & _).
  - exact arena_8_wf.
  - left. reflexivity.
  - simpl. left. reflexivity.
  - lia.
  - unfold SIZE_MAX. lia.
  - unfold live.
    split; [by_evaluation | split; by_evaluation].
  - by_evaluation.
  - unfold no_wrap. by_evaluation.
  - destruct H as (l & rest & _ & _ & _ & _ & Hptr).
    + split; by_evaluation.
    + exact Hptr.
Defined.

(** After create(1024) and a first alloc(8) at address 4096, the call
    realloc(4096, 8, 2000) finds [ptr + align_up(8)] equal to the bump pointer
    of the block holding [ptr], yet the block has no room for 2000 bytes: the
    region goes to a new block and is copied. *)
Lemma realloc_eligibility_counterexample :
  let b := get_last_block (chain arena_8) in
  let m := mkMalloc 64 8192 in
  let r := arena_realloc arena_8 zero_mem 4096 8 2000 m in
  fst (arena_alloc arena_1024 8 no_memory) = arena_8 /\
  wf arena_8 /\ malloc_ok arena_8 2000 m /\
  In b (blocks (chain arena_8)) /\ holds b 4096 = true /\ live b 4096 8 /\
  4096 + align_up 8 ARENA_ALIGNMENT = bump b /\
  realloc_loop (chain arena_8) 4096 (align_up 8 ARENA_ALIGNMENT)
               (align_up 2000 ARENA_ALIGNMENT) = None /\
  snd r = 8192 /\ snd r <> 4096 /\
  chain_length (chain (fst (fst r))) = 2%nat.
Proof.
  cbv zeta.
  repeat match goal with |- _ /\ _ => split end.
  - exact arena_8_alloc.
  - exact arena_8_wf.
  - right. unfold request_size.
    match goal with |- fresh ?l _ ?n => evaluate l; evaluate n end.
    concrete.
  - simpl. left. reflexivity.
  - by_evaluation.
  - unfold live. split; [by_evaluation | split; by_evaluation].
  - by_evaluation.
  - by_evaluation.
  - by_evaluation.
  - by_evaluation.
  - by_evaluation.
Qed.

(** ** C9: edge cases of realloc *)

(** C9.  [arena_realloc] with [new_size = 0] returns [NULL] and leaves the
    arena and the memory as they are; with a [NULL] pointer it returns what
    [arena_alloc(new_size)] returns and leaves the arena that call leaves. *)
Theorem realloc_edge_cases : forall a mem ptr old_size new_size m,
  arena_realloc a mem ptr old_size 0 m = (a, mem, NULL) /\
  arena_realloc a mem NULL old_size new_size m
  = (fst (arena_alloc a new_size m), mem, snd (arena_alloc a new_size m)).
Proof.
  intros. split; [reflexivity | apply realloc_null].
Qed.

(** ** C6: reset *)

(** C6.  After [arena_reset] the global position is 0, no marker is left,
    the chain is the root block alone, and the root keeps its base and end,
    hence its capacity. *)
Theorem reset_totality : forall a,
  let a' := arena_reset a in
  let r := first_block (chain a) in
  get_current_position a' = 0 /\
  marker_count a' = 0 /\ markers a' = [] /\
  chain a' = Last (first_block (chain a')) /\
  base (first_block (chain a')) = base r /\
  end_ (first_block (chain a')) = end_ r /\
  block_cap (first_block (chain a')) = block_cap r.
Proof.
  intros a. cbv zeta. unfold arena_reset, get_current_position. simpl.
  rewrite Z.sub_diag. repeat split; reflexivity.
Qed.

(** ** C8: popping a stale marker *)

(** C8.  In a well-formed arena [arena_pop_marker] leaves every bump pointer
    within its block, whatever offset is on top of the marker stack; and when
    that offset exceeds the total capacity of the chain, it leaves the chain
    as it is and only removes the marker. *)
Theorem stale_marker_pop : forall a,
  wf a ->
  wf (arena_pop_marker a) /\
  Forall (fun b => base b <= bump b <= end_ b)
         (blocks (chain (arena_pop_marker a))) /\
  forall ms g,
    markers a = ms ++ [g] -> total_capacity (chain a) < g ->
    arena_pop_marker a = mkArena (chain a) ms (marker_cap a).
Proof.
  intros a Hwf. pose proof (pop_marker_wf a Hwf) as Hwf'.
  split; [assumption | split].
  - eapply Forall_impl; [|exact (proj1 Hwf')].
    unfold block_ok. intros; tauto.
  - intros ms g E Hg. pose proof (wf_total_bound a Hwf) as Hb.
    pose proof (wf_spans a Hwf) as Hsp.
    unfold arena_pop_marker, marker_count.
    rewrite E, last_length, last_last, removelast_last.
    destruct (Z.eqb_spec (Z.of_nat (S (length ms))) 0); [lia|].
    rewrite pop_loop_none by (assumption || lia). reflexivity.
Qed.

Lemma stale_marker_pop_witness :
  arena_pop_marker stale_arena
  = mkArena (chain stale_arena) [16] (marker_cap stale_arena).
Proof.
  destruct (stale_marker_pop stale_arena) as (_ & _ & H).
  - unfold stale_arena. concrete.
  - apply (H [16] 3000); [reflexivity | by_evaluation].
Defined.

(** ** Operations whose pointer sums do not wrap keep the arena well-formed *)

Lemma create_wf : forall initial_size node base_p markers_p a,
  is_size initial_size ->
  fresh [] base_p (create_size initial_size) ->
  arena_create initial_size node base_p markers_p = Some a ->
  wf a /\ markers a = [].
Proof.
  intros size node p mp a Hs (H1 & H2 & H3 & H4 & _) E.
  unfold arena_create in E. fold (create_size size) in E.
  destruct (node =? NULL); [discriminate|].
  destruct (p =? NULL); [discriminate|].
  destruct (mp =? NULL); [discriminate|].
  injection E as <-. unfold wf. simpl.
  assert (0 <= create_size size).
  { unfold create_size, is_size, ARENA_DEFAULT_SIZE in *.
    destruct (size =? 0); lia. }
  repeat split; repeat constructor; unfold capacity; simpl; lia.
Qed.

Lemma reset_wf : forall a, wf a -> wf (arena_reset a).
Proof.
  intros a (Hok & _ & _). unfold wf, arena_reset. simpl.
  assert (Hr : block_ok (first_block (chain a))).
  { destruct (chain a); simpl in *; now inversion Hok. }
  repeat split; repeat constructor;
    unfold block_ok, capacity in *; simpl; lia.
Qed.

Lemma realloc_wf : forall a mem ptr old_size new_size m,
  wf a -> malloc_ok a new_size m ->
  in_range a (ORealloc ptr old_size new_size m) ->
  wf (fst (fst (arena_realloc a mem ptr old_size new_size m))).
Proof.
  intros a mem ptr old new m Hwf Hm (Hp0 & Hpo & Hpn & Hnw).
  destruct (Z.eq_dec new 0) as [->|Hn]; [exact Hwf|].
  destruct (Z.eq_dec ptr NULL) as [->|Hp].
  { rewrite realloc_null. cbn [fst]. now apply alloc_wf. }
  destruct (align_up_bounds old) as [Hbo _].
  destruct (align_up_bounds new) as [Hbn _].
  destruct (realloc_loop (chain a) ptr (align_up old ARENA_ALIGNMENT)
              (align_up new ARENA_ALIGNMENT)) as [c'|] eqn:El.
  - unfold arena_realloc.
    destruct (Z.eqb_spec new 0); [contradiction|].
    destruct (Z.eqb_spec ptr NULL); [contradiction|].
    rewrite El. simpl.
    destruct Hwf as (Hok & Hsep & Hmk).
    apply realloc_loop_some in El; try assumption; try lia.
    destruct El as (l & b & r & E1 & E2 & _ & Hh & _ & Hend).
    apply holds_iff in Hh.
    unfold wf. simpl. rewrite E2. rewrite E1 in Hok, Hsep.
    repeat split; try assumption.
    + apply ok_set_bump; [assumption | lia].
    + eapply separated_same_span; [|exact Hsep]. apply same_span_set_bump.
  - destruct (realloc_copy_alloc a mem ptr old new m Hn Hp El) as [-> _].
    apply alloc_wf;
      [assumption | now apply no_wrap_aligned | now apply malloc_ok_aligned].
Qed.

Lemma exec_wf : forall s o,
  wf (fst s) -> op_ok (fst s) o -> in_range (fst s) o ->
  wf (fst (exec s o)).
Proof.
  intros [a mem] o Hwf Hok Hin.
  destruct o as [bytes m | num size m | ptr old new m | [s|] m | nm | |];
    cbn [exec fst op_ok in_range] in *.
  - apply alloc_wf; tauto.
  - destruct (calloc_alloc a mem num size m) as [-> _].
    apply alloc_wf; tauto.
  - apply realloc_wf; [assumption | tauto | exact Hin].
  - destruct (strdup_alloc a mem s m) as [-> _]. now apply alloc_wf.
  - exact Hwf.
  - now apply push_marker_wf.
  - now apply pop_marker_wf.
  - now apply reset_wf.
Qed.

Lemma reachable_wf : forall P s,
  (forall a o, P a o -> in_range a o) ->
  reachable_by P s -> wf (fst s).
Proof.
  intros P s HP.
  induction 1 as [size node p mp a mem Hs Hf E | s o Hr IH Ho Hok].
  - simpl. eapply create_wf; eassumption.
  - apply exec_wf; auto.
Qed.

(** ** C7: the bump pointer stays inside its block *)


Lemma state_1024_reachable : forall P, reachable_by P state_1024.
Proof.
  intros P. apply (reach_create P 1024 64 4096 128).
  - unfold is_size, SIZE_MAX. lia.
  - evaluate (create_size 1024). concrete.
  - reflexivity.
Qed.



(** ** C4: the marker stack *)




Lemma realloc_markers : forall a mem ptr old_size new_size m,
  markers (fst (fst (arena_realloc a mem ptr old_size new_size m)))
  = markers a.
Proof.
  intros a mem ptr old new m. unfold arena_realloc.
  destruct (new =? 0); [reflexivity|].
  destruct (ptr =? NULL).
  { pose proof (alloc_markers a new m) as [E _].
    destruct (arena_alloc a new m). exact E. }
  destruct (realloc_loop _ _ _ _); [reflexivity|].
  pose proof (alloc_markers a (align_up new ARENA_ALIGNMENT) m) as [E _].
  destruct (arena_alloc a (align_up new ARENA_ALIGNMENT) m) as [a' q].
  destruct (q =? NULL); exact E.
Qed.








(** * Further properties of the code *)

(** ** align_up *)

(** X1.  For a size of at most [SIZE_MAX - 7], [align_up(n, 8)] is the least
    multiple of 8 that is at least [n], and aligning it again changes
    nothing; for a larger size the sum wraps around and the result is 0. *)
Theorem align_up_least_multiple : forall n,
  (0 <= n <= SIZE_MAX - 7 ->
   n <= align_up n ARENA_ALIGNMENT < n + 8 /\
   align_up n ARENA_ALIGNMENT mod 8 = 0 /\
   (forall k, n <= k -> k mod 8 = 0 -> align_up n ARENA_ALIGNMENT <= k) /\
   align_up (align_up n ARENA_ALIGNMENT) ARENA_ALIGNMENT
   = align_up n ARENA_ALIGNMENT) /\
  (SIZE_MAX - 7 < n <= SIZE_MAX -> align_up n ARENA_ALIGNMENT = 0).
Proof.
  intros n. split; [|apply align_up_wraps].
  intros Hn. pose proof (align_up_fits n Hn) as Hf.
  destruct (align_up_bounds n) as [_ Hm]. unfold ARENA_ALIGNMENT in Hm at 2.
  repeat split; try lia; try exact Hm; [|apply align_up_idem].
  intros k Hk Hk8.
  pose proof (Z.div_mod k 8 ltac:(lia)).
  pose proof (Z.div_mod (align_up n ARENA_ALIGNMENT) 8 ltac:(lia)).
  lia.
Qed.

Lemma align_up_least_multiple_witness :
  13 <= align_up 13 ARENA_ALIGNMENT < 13 + 8 /\
  align_up 13 ARENA_ALIGNMENT mod 8 = 0 /\
  align_up SIZE_MAX ARENA_ALIGNMENT = 0.
Proof.
  destruct (align_up_least_multiple 13) as [H _].
  destruct (align_up_least_multiple SIZE_MAX) as [_ H'].
  destruct H as (H1 & H2 & _); [unfold SIZE_MAX; lia|].
  split; [exact H1 | split; [exact H2|]].
  apply H'. unfold SIZE_MAX. lia.
Defined.

(** ** arena_create *)

(** X2.  [arena_create] returns [NULL] exactly when one of its three
    [malloc] calls fails.  Otherwise the arena is one block at the address
    [malloc] gave, of the requested capacity ([ARENA_DEFAULT_SIZE] for a
    request of 0), with nothing allocated, no marker and room for
    [ARENA_INITIAL_MARKER_CAP] markers; it is well-formed and aligned when
    the block memory is a valid aligned region. *)
Theorem create_outcome : forall initial_size node base_p markers_p,
  (arena_create initial_size node base_p markers_p = None <->
   node = NULL \/ base_p = NULL \/ markers_p = NULL) /\
  (forall a,
     arena_create initial_size node base_p markers_p = Some a ->
     chain a = Last (mkBlock base_p base_p
                             (base_p + create_size initial_size)) /\
     markers a = [] /\ marker_cap a = ARENA_INITIAL_MARKER_CAP /\
     get_current_position a = 0 /\
     (initial_size = 0 ->
      capacity (get_last_block (chain a)) = ARENA_DEFAULT_SIZE) /\
     (initial_size <> 0 ->
      capacity (get_last_block (chain a)) = initial_size) /\
     (is_size initial_size -> fresh [] base_p (create_size initial_size) ->
      wf a /\ aligned a)).
Proof.
  intros size node p mp. unfold arena_create. fold (create_size size).
  destruct (Z.eqb_spec node NULL) as [Hn|Hn];
    [split; [split; auto | discriminate]|].
  destruct (Z.eqb_spec p NULL) as [Hp|Hp];
    [split; [split; auto | discriminate]|].
  destruct (Z.eqb_spec mp NULL) as [Hm|Hm];
    [split; [split; auto | discriminate]|].
  split; [split; [discriminate | tauto]|].
  intros a [= <-]. cbn [chain markers marker_cap get_last_block].
  split; [reflexivity | split; [reflexivity | split; [reflexivity|]]].
  split.
  { unfold get_current_position. simpl. now rewrite Z.sub_diag. }
  unfold capacity, create_size. cbn [base end_].
  split; [intros ->; simpl; lia|]. split.
  { intros Hz. destruct (Z.eqb_spec size 0); [contradiction | lia]. }
  intros Hs Hf. split.
  - eapply create_wf with (node := 1) (markers_p := 1); try eassumption.
    unfold arena_create. fold (create_size size).
    destruct (Z.eqb_spec p NULL); [contradiction | reflexivity].
  - eapply create_aligned with (node := 1) (markers_p := 1); try eassumption.
    unfold arena_create. fold (create_size size).
    destruct (Z.eqb_spec p NULL); [contradiction | reflexivity].
Qed.

Lemma create_outcome_witness :
  exists a, arena_create 0 64 4096 128 = Some a /\
            capacity (get_last_block (chain a)) = ARENA_DEFAULT_SIZE /\
            get_current_position a = 0.
Proof.
  destruct (create_outcome 0 64 4096 128) as [_ H].
  eexists. split; [reflexivity|].
  destruct (H _ eq_refl) as (_ & _ & _ & H4 & H5 & _).
  split; [apply H5; reflexivity | exact H4].
Defined.

(** ** arena_alloc: failure, accounting, no aliasing *)

(** X3.  In a well-formed arena [arena_alloc] returns [NULL] exactly when
    the request is for 0 bytes, or its fit test fails (the sum of the tail's
    bump pointer and the aligned size, computed modulo 2^64, exceeds the end
    of the tail) and one of the two [malloc] calls fails; and whenever it
    returns [NULL] the arena is left exactly as it was: no block is chained,
    no bump pointer moves. *)
Theorem alloc_null_iff : forall a bytes m,
  wf a ->
  let al := align_up bytes ARENA_ALIGNMENT in
  let last := get_last_block (chain a) in
  (snd (arena_alloc a bytes m) = NULL <->
   bytes = 0 \/
   (end_ last < ptr_add (bump last) al /\
    (node_ptr m = NULL \/ base_ptr m = NULL))) /\
  (snd (arena_alloc a bytes m) = NULL -> fst (arena_alloc a bytes m) = a).
Proof.
  intros a bytes m Hwf al last.
  pose proof (last_block_ok _ (proj1 Hwf)) as Hlast.
  subst al last.
  destruct (alloc_inv a bytes m) as [H | c' Hz Hfit Hc | c' Hz Hgrow Hn Hp Hc].
  - split; [split; auto | reflexivity].
  - assert (bump (get_last_block (chain a)) <> NULL)
      by (unfold NULL, block_ok in *; lia).
    split; [split; [contradiction | lia] | contradiction].
  - split; [split; [contradiction | tauto] | contradiction].
Qed.

Lemma alloc_null_iff_witness :
  fst (arena_alloc arena_1024 2000 no_memory) = arena_1024.
Proof.
  destruct (alloc_null_iff arena_1024 2000 no_memory arena_1024_wf)
    as [_ H].
  apply H. by_evaluation.
Defined.

(** X4.  In a well-formed arena a successful [arena_alloc] whose aligned
    size does not carry the bump pointer past the end of the address space
    leaves the global position just past the region it returns: when the
    aligned request fits in the tail block the position advances by exactly
    the aligned size, and when a block is chained the position becomes the
    total capacity of the old chain plus the aligned size, the room left in
    the old tail being counted as used.  The position does not exceed the
    total capacity. *)
Theorem alloc_position : forall a bytes m,
  wf a -> no_wrap a bytes -> malloc_ok a bytes m ->
  let al := align_up bytes ARENA_ALIGNMENT in
  let last := get_last_block (chain a) in
  let a' := fst (arena_alloc a bytes m) in
  snd (arena_alloc a bytes m) <> NULL ->
  (bump last + al <= end_ last ->
   get_current_position a' = get_current_position a + al) /\
  (end_ last < bump last + al ->
   get_current_position a' = total_capacity (chain a) + al) /\
  get_current_position a' <= total_capacity (chain a').
Proof.
  intros a bytes m Hwf Hnw Hm al last a' Hp.
  pose proof (alloc_wf a bytes m Hwf Hnw Hm) as Hwf'. fold a' in Hwf'.
  pose proof (last_block_ok _ (proj1 Hwf)) as Hlast.
  rewrite (get_current_position_exact a Hwf).
  rewrite (get_current_position_exact a' Hwf').
  pose proof (position_bounds _ (proj1 Hwf')) as Hb.
  split; [|split; [|lia]]; intros Hcase; subst a' al last;
    destruct (alloc_inv_exact a bytes m Hlast Hnw Hm)
      as [H | c' Hz Hfit Hc | c' Hz Hgrow Hn Hq Hc];
    try contradiction; try lia; cbn [chain set_chain].
  - rewrite (position_sum c'), (position_sum (chain a)).
    rewrite (front_app_one _ _ _ Hc), (last_app_one _ _ _ Hc).
    cbn [base bump set_bump]. lia.
  - rewrite (position_sum c'), total_capacity_sum.
    rewrite (front_app_one _ _ _ Hc), (last_app_one _ _ _ Hc).
    cbn [base bump]. lia.
Qed.

Lemma alloc_position_witness :
  get_current_position (fst (arena_alloc arena_1024 3000 (mkMalloc 64 8192)))
  = total_capacity (chain arena_1024) + align_up 3000 ARENA_ALIGNMENT.
Proof.
  destruct (alloc_position arena_1024 3000 (mkMalloc 64 8192))
    as (_ & H & _).
  - exact arena_1024_wf.
  - unfold no_wrap. by_evaluation.
  - right. unfold request_size.
    match goal with |- fresh ?l _ ?n => evaluate l; evaluate n end.
    concrete.
  - by_evaluation.
  - apply H. by_evaluation.
Defined.

Lemma used_alloc : forall a bytes m p n,
  wf a -> no_wrap a bytes -> malloc_ok a bytes m ->
  used a p n -> used (fst (arena_alloc a bytes m)) p n.
Proof.
  intros a bytes m p n Hwf Hnw Hm (b & Hb & H1 & H2).
  destruct (align_up_bounds bytes) as [Hal _].
  pose proof (last_block_ok _ (proj1 Hwf)) as Hlast.
  destruct (alloc_inv_exact a bytes m Hlast Hnw Hm)
    as [H | c' Hz Hfit Hc | c' Hz Hgrow Hn Hq Hc].
  - exists b. auto.
  - unfold used. cbn [chain set_chain]. rewrite Hc.
    rewrite blocks_split in Hb. apply in_app_or in Hb.
    destruct Hb as [Hb | [<- | []]].
    + exists b. split; [apply in_or_app; now left | lia].
    + eexists. split; [apply in_or_app; right; now left|].
      cbn [base bump set_bump]. lia.
  - unfold used. cbn [chain set_chain]. rewrite Hc.
    exists b. split; [apply in_or_app; now left | lia].
Qed.

Lemma used_alloc_all : forall reqs a p n,
  wf a -> allocs_ok a reqs -> allocs_in_range a reqs ->
  used a p n -> used (alloc_all a reqs) p n.
Proof.
  induction reqs as [|[bytes m] t IH]; intros a p n Hwf Hok Hnw Hu;
    simpl in *.
  - exact Hu.
  - destruct Hok as (_ & Hm & Ht). destruct Hnw as [Hn1 Hn2].
    apply IH; [now apply alloc_wf | exact Ht | exact Hn2
               | now apply used_alloc].
Qed.

Lemma alloc_result_used : forall a bytes m,
  wf a -> no_wrap a bytes -> malloc_ok a bytes m ->
  snd (arena_alloc a bytes m) <> NULL ->
  used (fst (arena_alloc a bytes m)) (snd (arena_alloc a bytes m))
       (align_up bytes ARENA_ALIGNMENT).
Proof.
  intros a bytes m Hwf Hnw Hm Hp.
  pose proof (last_block_ok _ (proj1 Hwf)) as Hlast.
  destruct (alloc_inv_exact a bytes m Hlast Hnw Hm)
    as [H | c' Hz Hfit Hc | c' Hz Hgrow Hn Hq Hc].
  - contradiction.
  - unfold used. cbn [chain set_chain]. rewrite Hc.
    eexists. split; [apply in_or_app; right; now left|].
    cbn [base bump set_bump]. unfold block_ok in Hlast. lia.
  - unfold used. cbn [chain set_chain]. rewrite Hc.
    eexists. split; [apply in_or_app; right; now left|].
    cbn [base bump]. lia.
Qed.

Lemma alloc_avoids_used : forall a bytes m p n,
  wf a -> no_wrap a bytes -> malloc_ok a bytes m -> used a p n ->
  snd (arena_alloc a bytes m) <> NULL ->
  snd (arena_alloc a bytes m) + align_up bytes ARENA_ALIGNMENT <= p \/
  p + n <= snd (arena_alloc a bytes m).
Proof.
  intros a bytes m p n Hwf Hnw Hm (b & Hb & H1 & H2) Hp.
  destruct (alloc_fresh_region a bytes m b Hwf Hnw Hm Hp Hb); lia.
Qed.

(** X5.  No aliasing: in a well-formed arena the region a successful
    [arena_alloc] returns never overlaps the region of any later successful
    [arena_alloc], however many allocations are made in between and whether
    or not blocks are chained meanwhile, as long as no request of the run
    carries the bump pointer past the end of the address space and the two
    requests are of at most [SIZE_MAX - 7] bytes. *)
Theorem alloc_never_aliases : forall a b1 m1 reqs b2 m2,
  wf a -> malloc_ok a b1 m1 -> no_wrap a b1 ->
  let a1 := fst (arena_alloc a b1 m1) in
  let p1 := snd (arena_alloc a b1 m1) in
  allocs_ok a1 reqs -> allocs_in_range a1 reqs ->
  let a2 := alloc_all a1 reqs in
  malloc_ok a2 b2 m2 -> no_wrap a2 b2 ->
  let p2 := snd (arena_alloc a2 b2 m2) in
  0 <= b1 <= SIZE_MAX - 7 -> 0 <= b2 <= SIZE_MAX - 7 ->
  p1 <> NULL -> p2 <> NULL ->
  (p1 + align_up b1 ARENA_ALIGNMENT <= p2 \/
   p2 + align_up b2 ARENA_ALIGNMENT <= p1) /\
  (p1 + b1 <= p2 \/ p2 + b2 <= p1).
Proof.
  intros a b1 m1 reqs b2 m2 Hwf Hm1 Hn1 a1 p1 Hreqs Hnr a2 Hm2 Hn2 p2
         Hb1 Hb2 Hp1 Hp2.
  pose proof (alloc_wf a b1 m1 Hwf Hn1 Hm1) as Hwf1. fold a1 in Hwf1.
  pose proof (alloc_result_used a b1 m1 Hwf Hn1 Hm1 Hp1) as Hu.
  fold a1 p1 in Hu.
  pose proof (alloc_all_wf reqs a1 Hwf1 Hreqs Hnr) as Hwf2. fold a2 in Hwf2.
  pose proof (used_alloc_all reqs a1 _ _ Hwf1 Hreqs Hnr Hu) as Hu2.
  fold a2 in Hu2.
  pose proof (align_up_fits b1 Hb1). pose proof (align_up_fits b2 Hb2).
  subst p2.
  destruct (alloc_avoids_used a2 b2 m2 _ _ Hwf2 Hn2 Hm2 Hu2 Hp2); lia.
Qed.

Lemma alloc_never_aliases_witness :
  let m := mkMalloc 64 8192 in
  let a1 := fst (arena_alloc arena_1024 1000 no_memory) in
  let p1 := snd (arena_alloc arena_1024 1000 no_memory) in
  let a2 := alloc_all a1 [(8, no_memory)] in
  let p2 := snd (arena_alloc a2 100 m) in
  p1 + align_up 1000 ARENA_ALIGNMENT <= p2 \/
  p2 + align_up 100 ARENA_ALIGNMENT <= p1.
Proof.
  cbv zeta.
  apply (alloc_never_aliases arena_1024 1000 no_memory [(8, no_memory)] 100
           (mkMalloc 64 8192)).
  - exact arena_1024_wf.
  - left. reflexivity.
  - unfold no_wrap. by_evaluation.
  - split; [unfold is_size, SIZE_MAX; lia | split; [left; reflexivity|exact I]].
  - split; [unfold no_wrap; by_evaluation | exact I].
  - right. unfold request_size.
    match goal with |- fresh ?l _ ?n => evaluate l; evaluate n end.
    concrete.
  - unfold no_wrap. by_evaluation.
  - unfold SIZE_MAX. lia.
  - unfold SIZE_MAX. lia.
  - by_evaluation.
  - by_evaluation.
Defined.

(** ** Memory written by calloc, strdup and realloc *)

(** A fill that ends within the address space writes the bytes from [p]
    on and no other. *)
Lemma memset_loop_frame : forall n m p v q,
  0 <= p -> p + Z.of_nat n <= SIZE_MAX + 1 ->
  q < p \/ p + Z.of_nat n <= q -> memset_loop m p v n q = m q.
Proof.
  induction n; intros m p v q H0 Hn Hq; [reflexivity|].
  cbn [memset_loop]. rewrite Nat2Z.inj_succ in Hn, Hq.
  destruct n as [|k].
  - cbn [memset_loop]. unfold store.
    destruct (Z.eqb_spec q p); [lia | reflexivity].
  - rewrite Nat2Z.inj_succ in Hn, Hq.
    rewrite (ptr_add_exact p 1) by lia.
    rewrite IHn by (rewrite ?Nat2Z.inj_succ; lia). unfold store.
    destruct (Z.eqb_spec q p); [lia | reflexivity].
Qed.

Lemma memset_loop_fill : forall n m p v i,
  0 <= p -> p + Z.of_nat n <= SIZE_MAX + 1 ->
  0 <= i < Z.of_nat n -> memset_loop m p v n (p + i) = v.
Proof.
  induction n; intros m p v i H0 Hn Hi; [simpl in Hi; lia|].
  cbn [memset_loop]. rewrite Nat2Z.inj_succ in Hn, Hi.
  destruct (Z.eq_dec i 0) as [->|Hi0].
  - rewrite Z.add_0_r.
    destruct n as [|k].
    + cbn [memset_loop]. unfold store. now rewrite Z.eqb_refl.
    + rewrite Nat2Z.inj_succ in Hn, Hi.
      rewrite (ptr_add_exact p 1) by lia.
      rewrite memset_loop_frame by (rewrite ?Nat2Z.inj_succ; lia).
      unfold store. now rewrite Z.eqb_refl.
  - rewrite (ptr_add_exact p 1) by lia.
    replace (p + i) with (p + 1 + (i - 1)) by lia.
    apply IHn; lia.
Qed.





(** X6.  [arena_calloc] returns [NULL] and changes nothing when the product
    [num * size], reduced to [size_t], is 0.  When it returns an address
    from which [num * size] bytes end within the address space, those bytes
    are zero and no byte outside them has changed.  That is so in a
    well-formed arena when the product is at most [SIZE_MAX - 7] and its
    aligned size does not carry the bump pointer past the end of the address
    space; the bytes then all lie in the part of the tail block the call has
    just handed out. *)
Theorem calloc_zero_fill : forall a mem num size m,
  let total := sz (num * size) in
  let r := arena_calloc a mem num size m in
  (total = 0 -> r = (a, mem, NULL)) /\
  (0 < snd r -> snd r + total <= SIZE_MAX + 1 ->
   (forall i, 0 <= i < total -> snd (fst r) (snd r + i) = x00) /\
   (forall q, q < snd r \/ snd r + total <= q -> snd (fst r) q = mem q)) /\
  (wf a -> malloc_ok a total m -> no_wrap a total ->
   total <= SIZE_MAX - 7 -> snd r <> NULL ->
   0 < snd r /\ snd r + total <= SIZE_MAX /\
   used (fst (fst r)) (snd r) total).
Proof.
  intros a mem num size m total r. subst r. unfold arena_calloc.
  fold total.
  assert (Ht : 0 <= total) by apply sz_range.
  split; [|split].
  - intros ->. reflexivity.
  - destruct (arena_alloc a total m) as [a' p].
    destruct (Z.eqb_spec p NULL) as [Hp|Hp]; cbn [fst snd];
      [unfold NULL in Hp; lia|].
    intros Hp0 Hend. split.
    + intros i Hi. unfold memset. apply memset_loop_fill; lia.
    + intros q Hq. unfold memset. apply memset_loop_frame; lia.
  - intros Hwf Hm Hnw Hle.
    pose proof (alloc_result_used a total m Hwf Hnw Hm) as Hu.
    pose proof (alloc_region a total m Hwf Hnw Hm) as Hr.
    pose proof (align_up_fits total ltac:(lia)) as Hal.
    destruct (arena_alloc a total m) as [a' p].
    destruct (Z.eqb_spec p NULL) as [Hp|Hp]; cbn [fst snd] in *;
      [contradiction|].
    intros _. destruct (Hu Hp) as (b & Hb & H1 & H2).
    specialize (Hr Hp).
    split; [lia | split; [lia|]].
    exists b. split; [assumption | lia].
Qed.

Lemma calloc_zero_fill_witness :
  used (fst (fst (arena_calloc arena_1024 zero_mem 3 4 no_memory)))
       (snd (arena_calloc arena_1024 zero_mem 3 4 no_memory)) (sz (3 * 4)) /\
  snd (fst (arena_calloc arena_1024 zero_mem 3 4 no_memory))
      (snd (arena_calloc arena_1024 zero_mem 3 4 no_memory) + 11) = x00.
Proof.
  destruct (calloc_zero_fill arena_1024 zero_mem 3 4 no_memory)
    as (_ & H2 & H3).
  split.
  - apply H3.
    + exact arena_1024_wf.
    + left. reflexivity.
    + unfold no_wrap. by_evaluation.
    + by_evaluation.
    + by_evaluation.
  - destruct H2 as [H _].
    + by_evaluation.
    + by_evaluation.
    + apply H. split; by_evaluation.
Defined.







(** ** The marker array *)

Lemma realloc_marker_cap : forall a mem ptr old_size new_size m,
  marker_cap (fst (fst (arena_realloc a mem ptr old_size new_size m)))
  = marker_cap a.
Proof.
  intros a mem ptr old new m. unfold arena_realloc.
  destruct (new =? 0); [reflexivity|].
  destruct (ptr =? NULL).
  { pose proof (alloc_markers a new m) as [_ E].
    destruct (arena_alloc a new m). exact E. }
  destruct (realloc_loop _ _ _ _); [reflexivity|].
  pose proof (alloc_markers a (align_up new ARENA_ALIGNMENT) m) as [_ E].
  destruct (arena_alloc a (align_up new ARENA_ALIGNMENT) m) as [a' q].
  destruct (q =? NULL); exact E.
Qed.

Lemma removelast_length_le : forall (l : list Z),
  (length (removelast l) <= length l)%nat.
Proof.
  induction l as [|x t IH]; simpl; [lia|].
  destruct t; simpl in *; lia.
Qed.

(** X9.  The marker array is never overrun.  While the live markers fit in
    the array, its capacity is positive and doubling it does not overflow
    [size_t], every operation leaves the live markers within the capacity:
    [arena_push_marker] writes at index [marker_count] only after making
    sure, by doubling the capacity when the array is full, that the index is
    below the capacity, and the capacity never shrinks. *)
Theorem marker_array_bounds : forall s o,
  markers_fit (fst s) ->
  0 < marker_cap (fst s) -> 2 * marker_cap (fst s) <= SIZE_MAX ->
  markers_fit (fst (exec s o)) /\
  (marker_cap (fst (exec s o)) = marker_cap (fst s) \/
   (marker_count (fst s) = marker_cap (fst s) /\
    marker_cap (fst (exec s o)) = 2 * marker_cap (fst s))) /\
  (forall new_markers,
     o = OPush new_markers ->
     markers (fst (exec s o)) <> markers (fst s) ->
     marker_count (fst s) < marker_cap (fst (exec s o))).
Proof.
  intros [a mem] o Hfit Hpos Hcap. unfold markers_fit, marker_count in *.
  destruct o as [bytes m | num size m | ptr old new m | [s|] m | nm | |];
    cbn [exec fst] in *.
  - destruct (alloc_markers a bytes m) as [-> ->].
    split; [assumption | split; [now left | discriminate]].
  - destruct (calloc_alloc a mem num size m) as [-> _].
    destruct (alloc_markers a (sz (num * size)) m) as [-> ->].
    split; [assumption | split; [now left | discriminate]].
  - rewrite realloc_markers, realloc_marker_cap.
    split; [assumption | split; [now left | discriminate]].
  - destruct (strdup_alloc a mem s m) as [-> _].
    destruct (alloc_markers a (sz (strlen s + 1)) m) as [-> ->].
    split; [assumption | split; [now left | discriminate]].
  - split; [assumption | split; [now left | discriminate]].
  - unfold arena_push_marker, marker_count.
    destruct (Z.eqb_spec (Z.of_nat (length (markers a))) (marker_cap a))
      as [E|E].
    + destruct (Z.eqb_spec nm NULL).
      * split; [assumption | split; [now left|]].
        intros ? _ Hne. now contradiction Hne.
      * cbn [markers marker_cap].
        rewrite length_app, Nat2Z.inj_add, sz_small by lia.
        cbn [length]. change (Z.of_nat 1) with 1.
        split; [lia | split; [right; split; [assumption|lia]|]].
        intros; lia.
    + cbn [markers marker_cap]. rewrite length_app, Nat2Z.inj_add.
      cbn [length]. change (Z.of_nat 1) with 1.
      split; [lia | split; [now left | intros; lia]].
  - unfold arena_pop_marker, marker_count.
    destruct (Z.of_nat (length (markers a)) =? 0);
      [split; [assumption | split; [now left | discriminate]]|].
    cbn [markers marker_cap].
    pose proof (removelast_length_le (markers a)).
    split; [lia | split; [now left | discriminate]].
  - simpl. split; [lia | split; [now left | discriminate]].
Qed.

Lemma marker_array_bounds_witness :
  markers_fit (fst (exec state_1024 (OPush NULL))).
Proof.
  destruct (marker_array_bounds state_1024 (OPush NULL)) as [H _].
  - unfold markers_fit. by_evaluation.
  - by_evaluation.
  - by_evaluation.
  - exact H.
Defined.

(** ** Rewinding restores the chain itself *)

Lemma blocks_inj : forall c c', blocks c = blocks c' -> c = c'.
Proof.
  induction c; destruct c'; simpl; intros E.
  - now injection E as ->.
  - injection E as _ E. now destruct c'.
  - injection E as _ E. now destruct c.
  - injection E as -> E. f_equal. now apply IHc.
Qed.

Lemma set_bump_back : forall b b',
  same_span b b' -> set_bump b' (base b' + (bump b - base b)) = b.
Proof.
  intros [ba bu en] [ba' bu' en'] [E1 E2]. simpl in *. subst.
  unfold set_bump. simpl. f_equal. lia.
Qed.

(** The rewind loop stops at the block the offset was recorded in. *)
Lemma pop_loop_at : forall c acc l x extra off,
  Forall span_ok (blocks c) ->
  blocks c = l ++ x :: extra ->
  0 <= acc -> acc + total_capacity c <= SIZE_MAX ->
  0 <= off <= capacity x ->
  l = [] \/ 0 < off ->
  exists c',
    pop_loop (acc + sum_caps l + off) acc c = Some c' /\
    blocks c' = l ++ [set_bump x (base x + off)].
Proof.
  induction c; intros acc l x extra off Hok E Hacc Hb Hoff Hl;
    simpl in *; inversion Hok; subst.
  - destruct l as [|y l]; simpl in E.
    + injection E as <- _. cbn [sum_caps fold_right].
      rewrite block_cap_exact by assumption.
      rewrite sz_small by lia.
      destruct (Z.leb_spec (acc + 0 + off) (acc + capacity b)); [|lia].
      eexists. split; [reflexivity|]. simpl. unfold rewind.
      rewrite sz_small by lia. do 3 f_equal. lia.
    + injection E as _ E. now destruct l.
  - pose proof (total_capacity_nonneg c ltac:(assumption)).
    assert (0 <= capacity b) by (unfold span_ok, capacity in *; lia).
    rewrite block_cap_exact by assumption.
    rewrite sz_small by lia.
    destruct l as [|y l]; simpl in E.
    + injection E as <- _. cbn [sum_caps fold_right].
      destruct (Z.leb_spec (acc + 0 + off) (acc + capacity b)); [|lia].
      eexists. split; [reflexivity|]. simpl. unfold rewind.
      rewrite sz_small by lia. do 3 f_equal. lia.
    + injection E as <- E.
      assert (Hs : 0 <= sum_caps l).
      { apply sum_caps_nonneg. rewrite E in *.
        match goal with H : Forall span_ok (_ ++ _) |- _ =>
          apply Forall_app in H; tauto end. }
      assert (Hpos : 0 < off) by (destruct Hl; [discriminate | assumption]).
      change (sum_caps (b :: l)) with (capacity b + sum_caps l).
      destruct (Z.leb_spec (acc + (capacity b + sum_caps l) + off)
                           (acc + capacity b)); [lia|].
      destruct (IHc (acc + capacity b) l x extra off
                  ltac:(assumption) E ltac:(lia) ltac:(lia) Hoff
                  (or_intror Hpos))
        as (c' & Ep & Ec).
      replace (acc + (capacity b + sum_caps l) + off)
        with (acc + capacity b + sum_caps l + off) by lia.
      rewrite Ep. eexists. split; [reflexivity|]. simpl. now rewrite Ec.
Qed.

(** Allocations keep the blocks up to a given one in place. *)
Lemma alloc_extends : forall a bytes m l x extra,
  blocks (chain a) = l ++ x :: extra ->
  exists x' extra',
    blocks (chain (fst (arena_alloc a bytes m))) = l ++ x' :: extra' /\
    same_span x x'.
Proof.
  intros a bytes m l x extra E.
  destruct (alloc_inv a bytes m) as [H | c' Hz Hfit Hc | c' Hz Hgrow Hn Hq Hc];
    cbn [chain set_chain].
  - exists x, extra. split; [assumption | split; reflexivity].
  - rewrite Hc. induction extra as [|y e _] using rev_ind.
    + rewrite (front_app_one _ _ _ E), (last_app_one _ _ _ E).
      eexists. exists []. split; [reflexivity | split; reflexivity].
    + assert (E' : blocks (chain a) = (l ++ x :: e) ++ [y])
        by (rewrite E, <- app_assoc; reflexivity).
      rewrite (front_app_one _ _ _ E'), (last_app_one _ _ _ E').
      exists x. eexists. split; [|split; reflexivity].
      rewrite <- app_assoc. reflexivity.
  - rewrite Hc, E. exists x. eexists. split; [|split; reflexivity].
    rewrite <- app_assoc. reflexivity.
Qed.

Lemma alloc_all_extends : forall reqs a l x extra,
  blocks (chain a) = l ++ x :: extra ->
  exists x' extra',
    blocks (chain (alloc_all a reqs)) = l ++ x' :: extra' /\
    same_span x x'.
Proof.
  induction reqs as [|[bytes m] t IH]; intros a l x extra E; simpl.
  - exists x, extra. split; [assumption | split; reflexivity].
  - destruct (alloc_extends a bytes m l x extra E) as (x1 & e1 & E1 & S1).
    destruct (IH _ l x1 e1 E1) as (x2 & e2 & E2 & S2).
    exists x2, e2. split; [assumption|].
    unfold same_span in *. destruct S1, S2. split; congruence.
Qed.

(** X10.  Rewinding restores the chain itself, not only the position.  In
    a well-formed arena whose tail is the root or has something allocated in
    it, a recorded [arena_push_marker], any run of allocations and then
    [arena_pop_marker] leave exactly the chain and the markers there were
    before the push: every earlier block keeps its bump pointer, the tail
    gets back the bump pointer it had, and every block chained since is
    gone. *)
Theorem rewind_restores_chain : forall a new_markers reqs,
  wf a -> tail_in_use (chain a) ->
  marker_count a <> marker_cap a \/ new_markers <> NULL ->
  allocs_ok (arena_push_marker a new_markers) reqs ->
  let a3 := arena_pop_marker
              (alloc_all (arena_push_marker a new_markers) reqs) in
  chain a3 = chain a /\ markers a3 = markers a.
Proof.
  intros a nm reqs Hwf Htail Hpush Hreqs a3.
  destruct (push_marker_recorded a nm Hpush) as [Ec Em].
  pose proof (wf_spans a Hwf) as Hsp.
  pose proof (proj1 (proj2 Hwf)) as Hsep.
  destruct (alloc_all_spans reqs (arena_push_marker a nm))
    as (Hsp2 & Hsep2 & Em2 & _); try (rewrite Ec; assumption);
    try assumption.
  rewrite Em in Em2.
  pose proof (last_block_ok _ (proj1 Hwf)) as Hlast.
  destruct (alloc_all_extends reqs (arena_push_marker a nm)
              (front (chain a)) (get_last_block (chain a)) [])
    as (x' & extra' & E2 & Hspan).
  { rewrite Ec. apply blocks_split. }
  pose proof (spans_total_bound _ Hsp2 Hsep2) as Hb2.
  rewrite <- total_capacity_sum in Hb2.
  assert (Hoff : 0 <= bump (get_last_block (chain a))
                      - base (get_last_block (chain a)) <= capacity x').
  { unfold capacity, block_ok, same_span in *. lia. }
  assert (Hl : front (chain a) = [] \/
               0 < bump (get_last_block (chain a))
                   - base (get_last_block (chain a))).
  { destruct Htail as [[b E] | H]; [left; now rewrite E | right; lia]. }
  destruct (pop_loop_at _ 0 _ _ _ _ Hsp2 E2 ltac:(lia) ltac:(lia)
              Hoff Hl) as (c' & Ep & Ec').
  rewrite (set_bump_back _ _ Hspan) in Ec'.
  rewrite <- blocks_split in Ec'. apply blocks_inj in Ec'. subst c'.
  subst a3. unfold arena_pop_marker, marker_count.
  rewrite Em2, last_length, last_last, removelast_last.
  destruct (Z.eqb_spec (Z.of_nat (S (length (markers a)))) 0); [lia|].
  rewrite (get_current_position_exact a Hwf), position_sum.
  replace (sum_caps (front (chain a))
           + (bump (get_last_block (chain a))
              - base (get_last_block (chain a))))
    with (0 + sum_caps (front (chain a))
          + (bump (get_last_block (chain a))
             - base (get_last_block (chain a)))) by lia.
  rewrite Ep. split; reflexivity.
Qed.

Lemma rewind_restores_chain_witness :
  chain (arena_pop_marker
           (alloc_all (arena_push_marker arena_8 NULL)
                      [(8, no_memory); (3000, mkMalloc 64 8192)]))
  = chain arena_8.
Proof.
  destruct (rewind_restores_chain arena_8 NULL
              [(8, no_memory); (3000, mkMalloc 64 8192)]) as [H _].
  - exact arena_8_wf.
  - left. eexists. reflexivity.
  - left. by_evaluation.
  - split; [unfold is_size, SIZE_MAX; lia|].
    split; [left; reflexivity|].
    split; [unfold is_size, SIZE_MAX; lia|].
    split; [|exact I].
    right. unfold request_size.
    match goal with |- fresh ?l _ ?n => evaluate l; evaluate n end.
    concrete.
  - exact H.
Defined.

(** ** The root block and reset *)

Lemma first_block_hd : forall c l b r,
  blocks c = l ++ b :: r ->
  first_block c = match l with [] => b | x :: _ => x end.
Proof.
  intros c l b r E. destruct c as [b0 | b0 n]; simpl in *.
  - destruct l as [|x l]; simpl in E; now injection E.
  - destruct l as [|x l]; simpl in E; now injection E.
Qed.

Lemma same_root_step : forall c c' l b b' r r',
  blocks c = l ++ b :: r -> blocks c' = l ++ b' :: r' ->
  same_span b b' ->
  same_span (first_block c) (first_block c').
Proof.
  intros c c' l b b' r r' E E' Hs.
  rewrite (first_block_hd _ _ _ _ E), (first_block_hd _ _ _ _ E').
  destruct l; [assumption | split; reflexivity].
Qed.

Lemma alloc_same_root : forall a bytes m,
  same_span (first_block (chain a))
            (first_block (chain (fst (arena_alloc a bytes m)))).
Proof.
  intros a bytes m.
  destruct (alloc_extends a bytes m (front (chain a))
              (get_last_block (chain a)) [] (blocks_split (chain a)))
    as (x' & e' & E & Hs).
  eapply same_root_step; [apply blocks_split | exact E | exact Hs].
Qed.

Lemma reset_chain_of_root : forall a a',
  same_span (first_block (chain a)) (first_block (chain a')) ->
  chain (arena_reset a') = chain (arena_reset a).
Proof.
  intros a a' [E1 E2]. unfold arena_reset, set_bump. simpl.
  now rewrite E1, E2.
Qed.

(** X11.  The root block is never moved, resized or freed: in a
    well-formed arena every operation leaves the first block of the chain
    with the base and end it had.  So [arena_reset] brings back the same
    chain (the root alone, empty) whatever was done before it, it is
    idempotent, and after it an allocation that fits in the root is served
    from the root's base address. *)
Theorem root_block_fixed : forall a mem o,
  wf a ->
  same_span (first_block (chain a))
            (first_block (chain (fst (exec (a, mem) o)))) /\
  chain (arena_reset (fst (exec (a, mem) o))) = chain (arena_reset a) /\
  arena_reset (arena_reset a) = arena_reset a /\
  (forall bytes m,
     bytes <> 0 ->
     align_up bytes ARENA_ALIGNMENT <= capacity (first_block (chain a)) ->
     snd (arena_alloc (arena_reset a) bytes m) = base (first_block (chain a))).
Proof.
  intros a mem o Hwf.
  assert (Hroot : same_span (first_block (chain a))
                    (first_block (chain (fst (exec (a, mem) o))))).
  { destruct o as [bytes m | num size m | ptr old new m | [s|] m | nm | |];
      cbn [exec fst].
    - apply alloc_same_root.
    - destruct (calloc_alloc a mem num size m) as [-> _].
      apply alloc_same_root.
    - destruct (Z.eq_dec new 0) as [->|Hn]; [split; reflexivity|].
      destruct (Z.eq_dec ptr NULL) as [->|Hp].
      { rewrite realloc_null. cbn [fst]. apply alloc_same_root. }
      destruct (align_up_bounds old) as [Hbo _].
      destruct (align_up_bounds new) as [Hbn _].
      destruct (realloc_loop (chain a) ptr (align_up old ARENA_ALIGNMENT)
                  (align_up new ARENA_ALIGNMENT)) as [c'|] eqn:El.
      + unfold arena_realloc.
        destruct (Z.eqb_spec new 0); [contradiction|].
        destruct (Z.eqb_spec ptr NULL); [contradiction|].
        rewrite El. cbn [fst chain set_chain].
        apply realloc_loop_span in El.
        destruct El as (l & b & r & E1 & E2 & _).
        eapply same_root_step; [exact E1 | exact E2 | split; reflexivity].
      + destruct (realloc_copy_alloc a mem ptr old new m Hn Hp El) as [-> _].
        apply alloc_same_root.
    - destruct (strdup_alloc a mem s m) as [-> _]. apply alloc_same_root.
    - split; reflexivity.
    - destruct (push_marker_cases a nm) as [-> | [-> _]]; split; reflexivity.
    - pose proof (wf_total_bound a Hwf) as Hb.
      pose proof (wf_spans a Hwf) as Hsp.
      unfold arena_pop_marker.
      destruct (marker_count a =? 0); [split; reflexivity|].
      cbn [chain].
      destruct (pop_loop (last (markers a) 0) 0 (chain a)) as [c'|] eqn:Ep;
        [|split; reflexivity].
      destruct (Z.le_gt_cases (last (markers a) 0)
                  (total_capacity (chain a))) as [Hle|Hgt].
      + assert (Hg : 0 <= last (markers a) 0).
        { destruct Hwf as (_ & _ & Hm).
          destruct (markers a) as [|x t] eqn:E; [simpl; lia|].
          rewrite Forall_forall in Hm.
          destruct (Hm _ (last_In (x :: t) 0 ltac:(discriminate))). lia. }
        destruct (pop_loop_found (chain a) (last (markers a) 0) 0)
          as (l & b & r & c0 & E1 & E2 & E3 & _);
          try assumption; try lia.
        rewrite Ep in E2. injection E2 as <-.
        eapply same_root_step; [exact E1 | exact E3 | split; reflexivity].
      + rewrite pop_loop_none in Ep; try assumption; try lia. discriminate.
    - unfold arena_reset. simpl. split; reflexivity. }
  split; [exact Hroot|].
  split; [now apply reset_chain_of_root|].
  split; [reflexivity|].
  intros bytes m Hz Hfit.
  assert (Hr : block_ok (first_block (chain a))).
  { destruct Hwf as (Hok & _).
    destruct (chain a); simpl in *; now inversion Hok. }
  unfold block_ok in Hr.
  destruct (alloc_fit_exact (arena_reset a) bytes m Hz) as (c' & E & _);
    unfold arena_reset; cbn [chain get_last_block set_bump base bump end_];
    unfold capacity in Hfit; try lia.
  unfold arena_reset in E. rewrite E. reflexivity.
Qed.

Lemma root_block_fixed_witness :
  chain (arena_reset
           (fst (exec (arena_8, zero_mem) (OAlloc 3000 (mkMalloc 64 8192)))))
  = chain (arena_reset arena_8).
Proof.
  destruct (root_block_fixed arena_8 zero_mem (OAlloc 3000 (mkMalloc 64 8192)))
    as (_ & H & _).
  - exact arena_8_wf.
  - exact H.
Defined.

(** ** What pop_marker frees *)

(** X12.  [arena_pop_marker] does nothing on an empty marker stack.
    Otherwise, in a well-formed arena, it removes the top marker and either
    leaves the chain as it is or cuts it after one block: the blocks before
    that one are kept exactly as they are, that block keeps its base and end
    and gets a bump pointer inside them, every block after it is freed; no
    block is ever chained and the total capacity never grows. *)
Theorem pop_keeps_leading_blocks : forall a,
  (markers a = [] -> arena_pop_marker a = a) /\
  (wf a ->
   markers (arena_pop_marker a) = removelast (markers a) /\
   marker_cap (arena_pop_marker a) = marker_cap a /\
   (chain (arena_pop_marker a) = chain a \/
    exists l b r p,
      blocks (chain a) = l ++ b :: r /\
      blocks (chain (arena_pop_marker a)) = l ++ [set_bump b p] /\
      base b <= p <= end_ b) /\
   total_capacity (chain (arena_pop_marker a)) <= total_capacity (chain a)).
Proof.
  intros a. split.
  { intros E. unfold arena_pop_marker, marker_count. now rewrite E. }
  intros Hwf. pose proof (wf_total_bound a Hwf) as Hb.
  pose proof (wf_spans a Hwf) as Hsp.
  unfold arena_pop_marker.
  destruct (marker_count a =? 0) eqn:Ec.
  { apply Z.eqb_eq in Ec. unfold marker_count in Ec.
    destruct (markers a); [|simpl in Ec; lia].
    split; [reflexivity | split; [reflexivity | split; [now left | lia]]]. }
  cbn [chain markers marker_cap].
  split; [reflexivity | split; [reflexivity|]].
  destruct (pop_loop (last (markers a) 0) 0 (chain a)) as [c'|] eqn:Ep;
    [|split; [now left | lia]].
  destruct (Z.le_gt_cases (last (markers a) 0)
              (total_capacity (chain a))) as [Hle|Hgt].
  - assert (Hg : 0 <= last (markers a) 0).
    { destruct Hwf as (_ & _ & Hm).
      destruct (markers a) as [|x t] eqn:E; [simpl; lia|].
      rewrite Forall_forall in Hm.
      destruct (Hm _ (last_In (x :: t) 0 ltac:(discriminate))). lia. }
    destruct (pop_loop_found (chain a) (last (markers a) 0) 0)
      as (l & b & r & c0 & E1 & E2 & E3 & E4);
      try assumption; try lia.
    rewrite Ep in E2. injection E2 as <-.
    assert (Hr : 0 <= sum_caps r).
    { apply sum_caps_nonneg.
      rewrite E1 in Hsp. apply Forall_app in Hsp. destruct Hsp as [_ Hsp].
      now inversion Hsp. }
    split.
    + right. exists l, b, r. eexists. split; [exact E1 | split; [exact E3|]].
      unfold capacity in E4. lia.
    + rewrite !total_capacity_sum, E1, E3, !sum_caps_app.
      change (sum_caps (b :: r)) with (capacity b + sum_caps r).
      assert (Hone : forall q, sum_caps [set_bump b q] = capacity b)
        by (intros; unfold sum_caps, capacity; simpl; lia).
      rewrite Hone. lia.
  - rewrite pop_loop_none in Ep; try assumption; try lia. discriminate.
Qed.

Lemma pop_keeps_leading_blocks_witness :
  markers (arena_pop_marker stale_arena) = removelast (markers stale_arena).
Proof.
  destruct (pop_keeps_leading_blocks stale_arena) as [_ H].
  destruct H as (H & _).
  - unfold stale_arena. concrete.
  - exact H.
Defined.

(** ** Growing in place and shrinking back *)

Lemma set_bump_twice : forall b p, set_bump (set_bump b p) (bump b) = b.
Proof. intros [ba bu en] p. reflexivity. Qed.

(** X13.  Resizing in place is undone by resizing back.  When [ptr] is the
    last allocation of its block in a well-formed arena and the block has
    room for the new aligned size, [arena_realloc] to the new size followed
    by [arena_realloc] back to the old size returns [ptr] both times, never
    touches memory, and leaves the arena exactly as it was. *)
Theorem realloc_in_place_round_trip :
  forall a mem ptr old_size new_size m m' b,
  wf a -> In b (blocks (chain a)) ->
  old_size <> 0 -> new_size <> 0 ->
  base b <= ptr < end_ b ->
  ptr + align_up old_size ARENA_ALIGNMENT = bump b ->
  ptr + align_up new_size ARENA_ALIGNMENT <= end_ b ->
  let r1 := arena_realloc a mem ptr old_size new_size m in
  let r2 := arena_realloc (fst (fst r1)) (snd (fst r1)) ptr
                          new_size old_size m' in
  snd r1 = ptr /\ snd r2 = ptr /\
  snd (fst r1) = mem /\ snd (fst r2) = mem /\
  fst (fst r2) = a.
Proof.
  intros a mem ptr old new m m' b Hwf Hb Ho Hn Hptr Hlast Hroom r1 r2.
  destruct (align_up_bounds old) as [Hbo _].
  destruct (align_up_bounds new) as [Hbn _].
  set (al_o := align_up old ARENA_ALIGNMENT) in *.
  set (al_n := align_up new ARENA_ALIGNMENT) in *.
  assert (Hbok : block_ok b).
  { destruct Hwf as (Hok & _). rewrite Forall_forall in Hok. now apply Hok. }
  assert (Hnull : ptr <> NULL) by (unfold NULL, block_ok in *; lia).
  assert (Hp0 : 0 <= ptr) by (unfold block_ok in *; lia).
  assert (Hend : base b <= bump b <= end_ b /\ end_ b <= SIZE_MAX)
    by (unfold block_ok in *; lia).
  assert (Hh : holds b ptr = true) by (now apply holds_iff).
  destruct (holder_split _ b ptr (proj1 (proj2 Hwf)) Hb Hh)
    as (l1 & l2 & E & Hf1 & _).
  (* first call *)
  pose proof (realloc_loop_at (chain a) ptr al_o al_n l1 b l2 E Hf1 Hh) as H1.
  assert (R1 : resize_in_place b ptr al_o al_n
               = Some (set_bump b (ptr + al_n))).
  { apply resize_in_place_iff; try assumption; try lia.
    repeat split; assumption. }
  rewrite R1 in H1. destruct H1 as (c1 & L1 & E1).
  assert (Er1 : r1 = (set_chain a c1, mem, ptr)).
  { subst r1. unfold arena_realloc.
    destruct (Z.eqb_spec new 0); [contradiction|].
    destruct (Z.eqb_spec ptr NULL); [contradiction|].
    fold al_o al_n. now rewrite L1. }
  (* second call *)
  assert (Hh2 : holds (set_bump b (ptr + al_n)) ptr = true)
    by (apply holds_iff; cbn [base end_ set_bump]; lia).
  pose proof (realloc_loop_at c1 ptr al_n al_o l1 _ l2 E1 Hf1 Hh2) as H2.
  assert (R2 : resize_in_place (set_bump b (ptr + al_n)) ptr al_n al_o
               = Some (set_bump (set_bump b (ptr + al_n)) (ptr + al_o))).
  { apply resize_in_place_iff; try lia.
    - apply block_ok_set_bump; [assumption | lia].
    - cbn [base bump end_ set_bump]. unfold block_ok in Hbok.
      repeat split; try reflexivity. lia. }
  rewrite R2 in H2. destruct H2 as (c2 & L2 & E2).
  rewrite Hlast, set_bump_twice, <- E in E2. apply blocks_inj in E2. subst c2.
  assert (Er2 : r2 = (a, mem, ptr)).
  { subst r2. rewrite Er1. cbn [fst snd]. unfold arena_realloc.
    destruct (Z.eqb_spec old 0); [contradiction|].
    destruct (Z.eqb_spec ptr NULL); [contradiction|].
    fold al_o al_n. cbn [chain set_chain]. rewrite L2.
    destruct a. reflexivity. }
  rewrite Er1, Er2. cbn [fst snd]. repeat split; reflexivity.
Qed.

Lemma realloc_in_place_round_trip_witness :
  fst (fst (arena_realloc
              (fst (fst (arena_realloc arena_8 zero_mem 4096 8 100 no_memory)))
              (snd (fst (arena_realloc arena_8 zero_mem 4096 8 100 no_memory)))
              4096 100 8 no_memory))
  = arena_8.
Proof.
  destruct (realloc_in_place_round_trip arena_8 zero_mem 4096 8 100
              no_memory no_memory (mkBlock 4096 4104 5120))
    as (_ & _ & _ & _ & H).
  - exact arena_8_wf.
  - left. reflexivity.
  - discriminate.
  - discriminate.
  - cbn [base end_]. lia.
  - by_evaluation.
  - by_evaluation.
  - exact H.
Defined.

(** ** A duplicated string survives later calls *)




(** ** The position is computed without wrap-around *)

(** The rewind loop keeps a prefix of the chain and moves one bump
    pointer. *)
Lemma pop_loop_shape : forall c g acc c',
  pop_loop g acc c = Some c' ->
  exists l b r p,
    blocks c = l ++ b :: r /\ blocks c' = l ++ [set_bump b p].
Proof.
  induction c; intros g acc c' H; simpl in H.
  - destruct (g <=? sz (acc + block_cap b)); [|discriminate].
    injection H as <-. exists [], b, []. eexists. split; reflexivity.
  - destruct (g <=? sz (acc + block_cap b)).
    + injection H as <-. exists [], b, (blocks c). eexists.
      split; reflexivity.
    + destruct (pop_loop g (sz (acc + block_cap b)) c) as [c0|] eqn:E;
        [|discriminate].
      injection H as <-.
      destruct (IHc _ _ _ E) as (l & b0 & r & p & E1 & E2).
      exists (b :: l), b0, r, p. simpl. now rewrite E1, E2.
Qed.

(** Whatever the sizes asked for, no call moves, resizes or overlaps the
    blocks of the chain. *)
Lemma exec_spans : forall s o,
  Forall span_ok (blocks (chain (fst s))) ->
  separated (blocks (chain (fst s))) ->
  op_ok (fst s) o ->
  Forall span_ok (blocks (chain (fst (exec s o)))) /\
  separated (blocks (chain (fst (exec s o)))).
Proof.
  intros [a mem] o Hok Hsep Hop.
  assert (Hal : forall bytes m, malloc_ok a bytes m ->
            Forall span_ok (blocks (chain (fst (arena_alloc a bytes m)))) /\
            separated (blocks (chain (fst (arena_alloc a bytes m))))).
  { intros bytes m Hm.
    destruct (alloc_spans a bytes m Hok Hsep Hm) as (H1 & H2 & _). auto. }
  destruct o as [bytes m | num size m | ptr old new m | [str|] m | nm | |];
    cbn [exec fst op_ok] in *.
  - apply Hal. tauto.
  - destruct (calloc_alloc a mem num size m) as [-> _]. apply Hal. tauto.
  - destruct Hop as (_ & _ & Hm).
    destruct (Z.eq_dec new 0) as [->|Hn]; [split; assumption|].
    destruct (Z.eq_dec ptr NULL) as [->|Hp].
    { rewrite realloc_null. cbn [fst]. now apply Hal. }
    destruct (realloc_loop (chain a) ptr (align_up old ARENA_ALIGNMENT)
                (align_up new ARENA_ALIGNMENT)) as [c'|] eqn:El.
    + unfold arena_realloc.
      destruct (Z.eqb_spec new 0); [contradiction|].
      destruct (Z.eqb_spec ptr NULL); [contradiction|].
      rewrite El. cbn [fst chain set_chain].
      apply realloc_loop_span in El.
      destruct El as (l & b & r & E1 & E2 & _).
      rewrite E2. rewrite E1 in Hok, Hsep. split.
      * eapply spans_same_span; [|exact Hok]. apply same_span_set_bump.
      * eapply separated_same_span; [|exact Hsep]. apply same_span_set_bump.
    + destruct (realloc_copy_alloc a mem ptr old new m Hn Hp El) as [-> _].
      apply Hal. now apply malloc_ok_aligned.
  - destruct (strdup_alloc a mem str m) as [-> _]. now apply Hal.
  - split; assumption.
  - destruct (push_marker_cases a nm) as [-> | [-> _]]; split; assumption.
  - unfold arena_pop_marker.
    destruct (marker_count a =? 0); [split; assumption|].
    cbn [chain].
    destruct (pop_loop (last (markers a) 0) 0 (chain a)) as [c'|] eqn:Ep;
      [|split; assumption].
    destruct (pop_loop_shape _ _ _ _ Ep) as (l & b & r & p & E1 & E2).
    rewrite E2. rewrite E1 in Hok, Hsep. split.
    + eapply spans_cut. exact Hok.
    + eapply separated_cut. exact Hsep.
  - unfold arena_reset. cbn [chain blocks].
    assert (Hr : span_ok (first_block (chain a))).
    { destruct (chain a); simpl in *; now inversion Hok. }
    split; [|simpl; split; [constructor | exact I]].
    constructor; [exact Hr | constructor].
Qed.

Lemma reachable_spans : forall P s,
  reachable_by P s ->
  Forall span_ok (blocks (chain (fst s))) /\
  separated (blocks (chain (fst s))).
Proof.
  induction 1 as [size node p mp a mem Hs Hf E | s o Hr IH Ho Hok].
  - destruct (create_wf _ _ _ _ _ Hs Hf E) as [Hwf _]. simpl.
    split; [now apply wf_spans | apply Hwf].
  - destruct IH as [H1 H2]. now apply exec_spans.
Qed.

(** X15.  In every state reachable from [arena_create], whatever the calls
    and the sizes they ask for, the blocks of the chain are pairwise
    disjoint regions of the address space, so their total capacity is below
    [SIZE_MAX] and the running total of [get_current_position] does not wrap.
    When no pointer sum of the calls has passed the end of the address
    space, the bump offset of the tail does not wrap either: the result is
    the capacity of the blocks before the tail plus the bump offset of the
    tail, and it lies between 0 and the total capacity. *)
Theorem position_never_wraps : forall s,
  (reachable s ->
   separated (blocks (chain (fst s))) /\
   0 <= total_capacity (chain (fst s)) < SIZE_MAX) /\
  (reachable_by in_range s ->
   get_current_position (fst s)
   = sum_caps (front (chain (fst s)))
     + (bump (get_last_block (chain (fst s)))
        - base (get_last_block (chain (fst s)))) /\
   0 <= get_current_position (fst s) <= total_capacity (chain (fst s))).
Proof.
  intros s. split.
  - intros Hr. destruct (reachable_spans _ s Hr) as [Hok Hsep].
    split; [assumption|].
    rewrite total_capacity_sum. now apply spans_total_bound.
  - intros Hr. pose proof (reachable_wf _ s (fun _ _ H => H) Hr) as Hwf.
    pose proof (position_bounds _ (proj1 Hwf)) as Hp.
    rewrite (get_current_position_exact _ Hwf).
    split; [apply position_sum | lia].
Qed.

Lemma position_never_wraps_witness :
  total_capacity
    (chain (fst (exec state_1024 (OAlloc (SIZE_MAX - 7) no_memory))))
  < SIZE_MAX /\
  0 <= get_current_position (fst (exec state_1024 (OAlloc 100 no_memory)))
    <= total_capacity (chain (fst (exec state_1024 (OAlloc 100 no_memory)))).
Proof.
  destruct (position_never_wraps
              (exec state_1024 (OAlloc (SIZE_MAX - 7) no_memory)))
    as [H1 _].
  destruct (position_never_wraps (exec state_1024 (OAlloc 100 no_memory)))
    as [_ H2].
  split.
  - destruct H1 as (_ & _ & H); [|exact H].
    apply reach_exec; [apply state_1024_reachable | exact I |].
    split; [unfold is_size, SIZE_MAX; lia | left; reflexivity].
  - destruct H2 as (_ & H); [|exact H].
    apply reach_exec; [apply state_1024_reachable | |].
    + unfold in_range, no_wrap. by_evaluation.
    + split; [unfold is_size, SIZE_MAX; lia | left; reflexivity].
Defined.

(** ** Requests that wrap the pointer sum *)

(** X16.  [arena_alloc] checks no overflow of its pointer sum.  In a
    well-formed arena, a non-empty request whose aligned size carries the
    bump pointer of the tail past the end of the address space passes the
    fit test: the call chains no block, whatever [malloc] would answer,
    returns the bump pointer of the tail as if the request had been served,
    and leaves the bump pointer lower than it was, by 2^64 minus the aligned
    size. *)
Theorem alloc_wrap_around : forall a bytes m,
  wf a -> bytes <> 0 ->
  let al := align_up bytes ARENA_ALIGNMENT in
  let last := get_last_block (chain a) in
  SIZE_MAX < bump last + al ->
  let r := arena_alloc a bytes m in
  snd r = bump last /\ snd r <> NULL /\
  blocks (chain (fst r))
  = front (chain a) ++ [set_bump last (bump last + al - 2 ^ 64)] /\
  bump last + al - 2 ^ 64 < bump last /\
  markers (fst r) = markers a.
Proof.
  intros a bytes m Hwf Hz al last Hwrap r.
  pose proof (last_block_ok _ (proj1 Hwf)) as Hlast. fold last in Hlast.
  destruct (align_up_bounds bytes) as [Hal _]. fold al in Hal.
  unfold block_ok in Hlast.
  assert (E : ptr_add (bump last) al = bump last + al - 2 ^ 64).
  { unfold ptr_add, sz. symmetry.
    apply (Z.mod_unique (bump last + al) (2 ^ 64) 1);
      unfold SIZE_MAX in *; lia. }
  destruct (alloc_fit a bytes m Hz) as (c' & Ea & Ec).
  - fold al last. rewrite E. unfold SIZE_MAX in *. lia.
  - fold al last in Ec. rewrite E in Ec.
    subst r. rewrite Ea. cbn [fst snd chain set_chain markers].
    fold last.
    split; [reflexivity | split; [unfold NULL; lia | split; [exact Ec|]]].
    split; [unfold SIZE_MAX in *; lia | reflexivity].
Qed.

Lemma alloc_wrap_around_witness :
  snd (arena_alloc arena_1024 (SIZE_MAX - 7) (mkMalloc 64 8192)) = 4096 /\
  blocks (chain (fst (arena_alloc arena_1024 (SIZE_MAX - 7)
                                  (mkMalloc 64 8192))))
  = [mkBlock 4096 4088 5120].
Proof.
  destruct (alloc_wrap_around arena_1024 (SIZE_MAX - 7) (mkMalloc 64 8192))
    as (H1 & _ & H3 & _).
  - exact arena_1024_wf.
  - by_evaluation.
  - by_evaluation.
  - split; [exact H1|].
    rewrite H3. by_evaluation.
Defined.
